(** * A host-name resolver cache with round-robin selection (resolver.go)

    The service keeps, for every registered host name, a record with the
    IPv4 and IPv6 addresses of the last successful lookup and a rotation
    cursor.  One goroutine per host refreshes the record; callers read it
    and advance the cursor.

    The Go methods are embedded as programs over the primitive effects the
    source performs (mutex operations, map operations, field loads and
    stores through the [*ips] pointer, logging, the platform lookup), so
    that one text serves both the sequential reading, [run], and the
    interleaved one, [run_schedule]. *)

From Stdlib Require Import ZArith Lia Ascii String.
From Stdlib.Strings Require Import Byte.
From stdpp Require Import base option list gmap strings sorting pretty.

Local Open Scope Z_scope.

(** ** Go values *)

(** Go's [int] on a 64-bit platform: arithmetic wraps around. *)
Definition int_bits : Z := 64.
Definition max_int : Z := 2 ^ (int_bits - 1) - 1.
Definition min_int : Z := - 2 ^ (int_bits - 1).

Definition int_wrap (z : Z) : Z :=
  (z + 2 ^ (int_bits - 1)) `mod` 2 ^ int_bits - 2 ^ (int_bits - 1).

Definition int_add (a b : Z) : Z := int_wrap (a + b).
Definition int_sub (a b : Z) : Z := int_wrap (a - b).

(** Go's [%] truncates towards zero, as [Z.rem] does. *)
Definition int_rem (a b : Z) : Z := Z.rem a b.

(** [len(x)] as an [int]. *)
Definition len {A} (l : list A) : Z := Z.of_nat (length l).

Arguments len : simpl never.
Arguments int_rem : simpl never.
Arguments int_add : simpl never.
Arguments int_sub : simpl never.

(** [net.IP] is a byte slice. *)
Definition IP : Type := list byte.

(** A slice that is [nil] and a slice that is empty are both [[]]: every
    empty slice this package stores is the [nil] one ([var x []T] that was
    never appended to, or the zero value of the record). *)

(** [sort.Strings]: ascending byte-wise order.  The order is total and
    antisymmetric, so the sorted permutation is unique and any sorting
    algorithm computes it. *)
Definition sort_Strings (l : list string) : list string :=
  merge_sort String.le l.

Arguments sort_Strings : simpl never.

(** [strings.Contains]. *)
Fixpoint Contains (s substr : string) : bool :=
  String.prefix substr s ||
  match s with
  | EmptyString => false
  | String _ s' => Contains s' substr
  end.

(** ** A reference parser for address literals

    [net.ParseIP] belongs to the Go library; the programs below take it as
    a parameter.  [sampleParseIP] is an instance for the examples: it reads
    dotted-quad IPv4 literals and colon-hexadecimal IPv6 literals (without
    an embedded dotted quad or a zone) into the 16-byte form. *)
Module Sample.

Definition digit_val (c : ascii) : option N :=
  let n := N_of_ascii c in
  if ((48 <=? n) && (n <=? 57))%N then Some (n - 48)%N else None.

Definition hex_val (c : ascii) : option N :=
  let n := N_of_ascii c in
  if ((48 <=? n) && (n <=? 57))%N then Some (n - 48)%N
  else if ((97 <=? n) && (n <=? 102))%N then Some (n - 87)%N
  else if ((65 <=? n) && (n <=? 70))%N then Some (n - 55)%N
  else None.

(** Splits at every occurrence of [sep]. *)
Fixpoint split_on (sep : ascii) (s : list ascii) : list (list ascii) :=
  match s with
  | [] => [[]]
  | c :: s' =>
      if decide (c = sep) then [] :: split_on sep s'
      else match split_on sep s' with
           | [] => [[c]]
           | f :: fs => (c :: f) :: fs
           end
  end.

Definition number (base : N) (val : ascii → option N) (s : list ascii)
  : option N :=
  foldl (λ acc c, a ← acc; d ← val c; Some (a * base + d)%N) (Some 0%N) s.

Definition octet (s : list ascii) : option N :=
  match s with
  | [] => None
  | c :: rest =>
      if decide (c = "0"%char ∧ rest ≠ []) then None
      else if decide (3 < length s)%nat then None
      else n ← number 10 digit_val s;
           if (n <=? 255)%N then Some n else None
  end.

Definition group (s : list ascii) : option N :=
  match s with
  | [] => None
  | _ => if decide (4 < length s)%nat then None else number 16 hex_val s
  end.

Definition to_byte (n : N) : byte := default "000"%byte (Byte.of_N n).

Definition group_bytes (g : N) : list byte :=
  [to_byte (g / 256)%N; to_byte (g `mod` 256)%N].

Definition v4InV6Prefix : list byte :=
  replicate 10 "000"%byte ++ ["255"%byte; "255"%byte].

Definition parseIPv4 (s : list ascii) : option IP :=
  match split_on "."%char s with
  | [a; b; c; d] =>
      os ← mapM octet [a; b; c; d];
      Some (v4InV6Prefix ++ (to_byte <$> os))
  | _ => None
  end.

(** Splits at the first ["::"]. *)
Fixpoint split_ellipsis (s : list ascii)
  : option (list ascii * list ascii) :=
  match s with
  | c1 :: ((c2 :: rest) as s') =>
      if decide (c1 = ":"%char ∧ c2 = ":"%char) then Some ([], rest)
      else '(h, t) ← split_ellipsis s'; Some (c1 :: h, t)
  | _ => None
  end.

Definition groups (s : list ascii) : option (list N) :=
  match s with
  | [] => Some []
  | _ => mapM group (split_on ":"%char s)
  end.

Definition parseIPv6 (s : list ascii) : option IP :=
  match split_ellipsis s with
  | Some (h, t) =>
      gh ← groups h;
      gt ← groups t;
      if decide (length gh + length gt ≤ 7)%nat then
        Some (mjoin (group_bytes <$>
                gh ++ replicate (8 - (length gh + length gt)) 0%N ++ gt))
      else None
  | None =>
      gs ← groups s;
      if decide (length gs = 8%nat) then Some (mjoin (group_bytes <$> gs))
      else None
  end.

Definition sampleParseIP (s : string) : option IP :=
  let cs := list_ascii_of_string s in
  if decide (":"%char ∈ cs) then parseIPv6 cs else parseIPv4 cs.

End Sample.

(** ** The service state *)

(** [type ips struct]. *)
Record ips : Type := Ips {
  idx : Z;
  ip4 : list string;
  ip6 : list string;
  ipv4 : list IP;
  ipv6 : list IP;
}.

(** The zero value, [&ips{}]. *)
Definition ips_zero : ips := Ips 0 [] [] [] [].

(** The fields of [ips], indexed by the type of their content. *)
Inductive field : Type → Type :=
| Fidx : field Z
| Fip4 : field (list string)
| Fip6 : field (list string)
| Fipv4 : field (list IP)
| Fipv6 : field (list IP).

Definition get_field {T} (f : field T) (r : ips) : T :=
  match f in field T return T with
  | Fidx => idx r
  | Fip4 => ip4 r
  | Fip6 => ip6 r
  | Fipv4 => ipv4 r
  | Fipv6 => ipv6 r
  end.

Definition set_field {T} (f : field T) : T → ips → ips :=
  match f in field T return T → ips → ips with
  | Fidx => λ v r, Ips v (ip4 r) (ip6 r) (ipv4 r) (ipv6 r)
  | Fip4 => λ v r, Ips (idx r) v (ip6 r) (ipv4 r) (ipv6 r)
  | Fip6 => λ v r, Ips (idx r) (ip4 r) v (ipv4 r) (ipv6 r)
  | Fipv4 => λ v r, Ips (idx r) (ip4 r) (ip6 r) v (ipv6 r)
  | Fipv6 => λ v r, Ips (idx r) (ip4 r) (ip6 r) (ipv4 r) v
  end.

(** A [*ips]. *)
Definition ptr : Type := positive.

(** [sync.RWMutex]: free, held by [n + 1] readers, or held by a writer. *)
Inductive rwmutex : Type :=
| Unlocked
| RLocked (n : nat)
| WLocked.

#[global] Instance rwmutex_eq_dec : EqDecision rwmutex.
Proof. solve_decision. Defined.

Inductive level : Type := Info | Error | Debug.

(** An operand of [Println]. *)
Inductive operand : Type :=
| OStr (s : string)
| OInt (n : Z)
| OStrs (l : list string).

(** The result of [net.LookupHost]: addresses, or an error (its text). *)
Inductive lookup_result : Type :=
| LookupOk (addrs : list string)
| LookupErr (err : string).

(** [type svc struct], together with what the service reaches through it:
    the records behind the map's pointers, the lines handed to the logger,
    the goroutines started, the lines written by [DumpPrefix], the lookups
    made and the seconds slept. *)
Record svc : Type := Svc {
  mu : rwmutex;
  hosts : gmap string ptr;
  tag : string;
  log : list (level * list operand);
  heap : gmap ptr ips;
  goroutines : list string;
  written : list string;
  lookups : nat;
  slept : nat;
}.

Definition set_mu (m : rwmutex) (s : svc) : svc :=
  Svc m (hosts s) (tag s) (log s) (heap s) (goroutines s) (written s)
      (lookups s) (slept s).
Definition set_hosts (h : gmap string ptr) (s : svc) : svc :=
  Svc (mu s) h (tag s) (log s) (heap s) (goroutines s) (written s)
      (lookups s) (slept s).
Definition set_log (l : list (level * list operand)) (s : svc) : svc :=
  Svc (mu s) (hosts s) (tag s) l (heap s) (goroutines s) (written s)
      (lookups s) (slept s).
Definition set_heap (h : gmap ptr ips) (s : svc) : svc :=
  Svc (mu s) (hosts s) (tag s) (log s) h (goroutines s) (written s)
      (lookups s) (slept s).
Definition set_goroutines (g : list string) (s : svc) : svc :=
  Svc (mu s) (hosts s) (tag s) (log s) (heap s) g (written s)
      (lookups s) (slept s).
Definition set_written (w : list string) (s : svc) : svc :=
  Svc (mu s) (hosts s) (tag s) (log s) (heap s) (goroutines s) w
      (lookups s) (slept s).
Definition set_lookups (n : nat) (s : svc) : svc :=
  Svc (mu s) (hosts s) (tag s) (log s) (heap s) (goroutines s) (written s)
      n (slept s).
Definition set_slept (n : nat) (s : svc) : svc :=
  Svc (mu s) (hosts s) (tag s) (log s) (heap s) (goroutines s) (written s)
      (lookups s) n.

(** [New]. *)
Definition New (tag : string) : svc :=
  Svc Unlocked ∅ tag [] ∅ [] [] 0 0.

(** The record of a host, through the map and the pointer. *)
Definition record (s : svc) (host : string) : option ips :=
  p ← hosts s !! host; heap s !! p.

(** ** Primitive effects *)

Inductive event : Type → Type :=
| Lock : event unit
| Unlock : event unit
| RLock : event unit
| RUnlock : event unit
| MapGet (host : string) : event (option ptr)
| MapPut (host : string) (p : ptr) : event unit
| MapDelete (host : string) : event unit
| MapRange : event (list string)
| Alloc : event ptr
| Load {T} (p : ptr) (f : field T) : event T
| Store {T} (p : ptr) (f : field T) (v : T) : event unit
| Tag : event string
| Println (l : level) (args : list operand) : event unit
| Fprintf (line : string) : event unit
| Go (host : string) : event unit
| LookupHost (host : string) : event lookup_result
| Sleep (seconds : nat) : event unit
| Panic (reason : string) : event Empty_set.

(** Programs: a result, or an effect and what follows its answer. *)
Inductive prog (A : Type) : Type :=
| Ret (a : A)
| Vis {X : Type} (e : event X) (k : X → prog A).
Arguments Ret {A} a.
Arguments Vis {A X} e k.

Fixpoint bind {A B} (p : prog A) (f : A → prog B) : prog B :=
  match p with
  | Ret a => f a
  | Vis e k => Vis e (λ x, bind (k x) f)
  end.

Definition trigger {X} (e : event X) : prog X := Vis e Ret.

Declare Scope prog_scope.
Delimit Scope prog_scope with prog.
Bind Scope prog_scope with prog.
Notation "x ← p ; q" := (bind p (λ x, q))
  (at level 20, p at level 100, q at level 200, only parsing) : prog_scope.
Notation "' x ← p ; q" := (bind p (λ x, q))
  (at level 20, x pattern, p at level 100, q at level 200, only parsing)
  : prog_scope.
Notation "p ;; q" := (bind p (λ _, q))
  (at level 100, q at level 200, right associativity) : prog_scope.

(** [for _, x := range l { body }]. *)
Fixpoint for_each {X} (l : list X) (body : X → prog unit) : prog unit :=
  match l with
  | [] => Ret tt
  | x :: l' => (body x ;; for_each l' body)%prog
  end.

(** [for i, x := range l { body }], counting from [i]. *)
Fixpoint for_each_idx {X} (i : nat) (l : list X)
  (body : nat → X → prog unit) : prog unit :=
  match l with
  | [] => Ret tt
  | x :: l' => (body i x ;; for_each_idx (S i) l' body)%prog
  end.

(** [n] calls of [p] in a row, and their results. *)
Fixpoint repeat_call {A} (n : nat) (p : prog A) : prog (list A) :=
  match n with
  | O => Ret []
  | S n' => (a ← p; l ← repeat_call n' p; Ret (a :: l))%prog
  end.

(** [l[i]], which panics when [i] is out of range. *)
Definition index {X} (l : list X) (i : Z) : prog X :=
  match (if decide (0 ≤ i) then l !! Z.to_nat i else None) with
  | Some x => Ret x
  | None => Vis (Panic "index out of range") (λ e, match e with end)
  end.

(** [p.f] for a pointer read from the map, which panics when [p] is nil. *)
Definition deref (p : option ptr) : prog ptr :=
  match p with
  | Some p => Ret p
  | None => Vis (Panic "nil pointer dereference") (λ e, match e with end)
  end.

(** ** What an effect does to the state *)

Inductive outcome (A : Type) : Type :=
| Done (a : A) (s : svc)
| Blocked
| Panicked.
Arguments Done {A} a s.
Arguments Blocked {A}.
Arguments Panicked {A}.

Section Semantics.

(** The platform resolver: the answer to the [n]-th lookup made. *)
Variable resolver : nat → string → lookup_result.

Definition handle {X} (e : event X) (s : svc) : outcome X :=
  match e in event X return outcome X with
  | Lock =>
      match mu s with
      | Unlocked => Done tt (set_mu WLocked s)
      | _ => Blocked
      end
  | Unlock =>
      match mu s with
      | WLocked => Done tt (set_mu Unlocked s)
      | _ => Panicked
      end
  | RLock =>
      match mu s with
      | Unlocked => Done tt (set_mu (RLocked 0) s)
      | RLocked n => Done tt (set_mu (RLocked (S n)) s)
      | WLocked => Blocked
      end
  | RUnlock =>
      match mu s with
      | RLocked 0 => Done tt (set_mu Unlocked s)
      | RLocked (S n) => Done tt (set_mu (RLocked n) s)
      | _ => Panicked
      end
  | MapGet host => Done (hosts s !! host) s
  | MapPut host p => Done tt (set_hosts (<[host:=p]> (hosts s)) s)
  | MapDelete host => Done tt (set_hosts (delete host (hosts s)) s)
  | MapRange => Done (map_to_list (hosts s)).*1 s
  | Alloc =>
      let p := fresh (dom (heap s)) in
      Done p (set_heap (<[p:=ips_zero]> (heap s)) s)
  | Load p f =>
      match heap s !! p with
      | Some r => Done (get_field f r) s
      | None => Panicked
      end
  | Store p f v =>
      match heap s !! p with
      | Some r => Done tt (set_heap (<[p:=set_field f v r]> (heap s)) s)
      | None => Panicked
      end
  | Tag => Done (tag s) s
  | Println l args => Done tt (set_log (log s ++ [(l, args)]) s)
  | Fprintf line => Done tt (set_written (written s ++ [line]) s)
  | Go host => Done tt (set_goroutines (goroutines s ++ [host]) s)
  | LookupHost host =>
      Done (resolver (lookups s) host) (set_lookups (S (lookups s)) s)
  | Sleep n => Done tt (set_slept (slept s + n)%nat s)
  | Panic _ => Panicked
  end.

(** One thread running alone. *)
Fixpoint run {A} (p : prog A) (s : svc) : outcome A :=
  match p with
  | Ret a => Done a s
  | Vis e k =>
      match handle e s with
      | Done x s' => run (k x) s'
      | Blocked => Blocked
      | Panicked => Panicked
      end
  end.

(** Whether every [Store] of the run happens with the write lock held. *)
Fixpoint stores_locked {A} (p : prog A) (s : svc) : bool :=
  match p with
  | Ret a => true
  | Vis e k =>
      match e with
      | Store _ _ _ => bool_decide (mu s = WLocked)
      | _ => true
      end &&
      match handle e s with
      | Done x s' => stores_locked (k x) s'
      | _ => true
      end
  end.

(** Several threads: the schedule names the thread that performs its next
    effect.  A thread that is named and cannot move (it waits for the
    mutex, or has returned) blocks the schedule; a panic ends it. *)
Definition step_thread {A} (i : nat) (ts : list (prog A)) (s : svc)
  : outcome (list (prog A)) :=
  match ts !! i with
  | Some (Vis e k) =>
      match handle e s with
      | Done x s' => Done (<[i:=k x]> ts) s'
      | Blocked => Blocked
      | Panicked => Panicked
      end
  | _ => Blocked
  end.

Fixpoint run_schedule {A} (sched : list nat) (ts : list (prog A)) (s : svc)
  : outcome (list (prog A)) :=
  match sched with
  | [] => Done ts s
  | i :: sched' =>
      match step_thread i ts s with
      | Done ts' s' => run_schedule sched' ts' s'
      | Blocked => Blocked
      | Panicked => Panicked
      end
  end.

End Semantics.

(** ** The methods of the service *)

Definition newline : string := String "010"%char EmptyString.

(** The four local slices of [updateHostIPs]. *)
Record parsed : Type := Parsed {
  ipsv4 : list string;
  ipsv6 : list string;
  pipv4 : list IP;
  pipv6 : list IP;
}.

Inductive loop_end : Type := Returned | OutOfFuel.

Section Resolver.

(** [net.ParseIP]; [None] is its nil result. *)
Variable ParseIP : string → option IP.

Local Open Scope prog_scope.

Definition AddHost (host : string) : prog unit :=
  trigger Lock ;;
  r ← trigger (MapGet host);
  match r with
  | Some _ => trigger Unlock
  | None =>
      p ← trigger Alloc;
      trigger (MapPut host p) ;;
      trigger (Go host) ;;
      trigger Unlock
  end.

Definition DelHost (host : string) : prog unit :=
  trigger Lock ;;
  trigger (MapDelete host) ;;
  trigger Unlock.

Definition Stop : prog unit :=
  trigger Lock ;;
  keys ← trigger MapRange;
  for_each keys (λ host, trigger (MapDelete host)) ;;
  trigger Unlock.

Definition GetNextIPWithIdx (host : string) : prog (string * Z) :=
  trigger Lock ;;
  r ← trigger (MapGet host);
  match r with
  | Some r =>
      l ← trigger (Load r Fip4);
      let itemsCount := len l in
      if decide (itemsCount = 0) then
        trigger Unlock ;; Ret ("", -1)
      else
        i ← trigger (Load r Fidx);
        trigger (Store r Fidx (int_rem (int_add i 1) itemsCount)) ;;
        l ← trigger (Load r Fip4);
        i ← trigger (Load r Fidx);
        ip ← index l i;
        i ← trigger (Load r Fidx);
        trigger Unlock ;; Ret (ip, i)
  | None => trigger Unlock ;; Ret ("", -1)
  end.

Definition GetNextIP (host : string) : prog string :=
  '(ip, _) ← GetNextIPWithIdx host;
  Ret ip.

Definition GetIPs (host : string) : prog (list IP * list IP) :=
  trigger RLock ;;
  hosts ← trigger (MapGet host);
  trigger RUnlock ;;
  match hosts with
  | None => Ret ([], [])
  | Some p =>
      a ← trigger (Load p Fipv4);
      b ← trigger (Load p Fipv6);
      Ret (a, b)
  end.

Definition GetIPsStr (host : string) : prog (list string * list string) :=
  trigger RLock ;;
  hosts ← trigger (MapGet host);
  trigger RUnlock ;;
  match hosts with
  | None => Ret ([], [])
  | Some p =>
      a ← trigger (Load p Fip4);
      b ← trigger (Load p Fip6);
      Ret (a, b)
  end.

Definition dump_line (prefix family hostName : string) (i : nat)
  (ip : string) : string :=
  prefix +:+ "resolver." +:+ family +:+ "." +:+ hostName +:+ "."
    +:+ pretty i +:+ ": " +:+ ip +:+ newline.

Definition DumpPrefix (prefix : string) : prog unit :=
  trigger RLock ;;
  keys ← trigger MapRange;
  let hosts := sort_Strings keys in
  for_each hosts (λ hostName,
    host ← trigger (MapGet hostName);
    p ← deref host;
    l ← trigger (Load p Fip4);
    let ip4 := sort_Strings l in
    for_each_idx 0 ip4 (λ i ip,
      trigger (Fprintf (dump_line prefix "v4" hostName i ip))) ;;
    p ← deref host;
    l ← trigger (Load p Fip6);
    let ip6 := sort_Strings l in
    for_each_idx 0 ip6 (λ i ip,
      trigger (Fprintf (dump_line prefix "v6" hostName i ip)))) ;;
  trigger RUnlock.

Definition Dump : prog unit := DumpPrefix "".

(** The body of [for _, ip := range sip]. *)
Definition collect (acc : parsed) (ip : string) : parsed :=
  match ParseIP ip with
  | None => acc
  | Some ipp =>
      if Contains ip ":" then
        Parsed (ipsv4 acc) (ipsv6 acc ++ [ip]) (pipv4 acc) (pipv6 acc ++ [ipp])
      else
        Parsed (ipsv4 acc ++ [ip]) (ipsv6 acc) (pipv4 acc ++ [ipp]) (pipv6 acc)
  end.

Definition updateHostIPs (host : string) (sip : list string) : prog bool :=
  trigger RLock ;;
  r ← trigger (MapGet host);
  trigger RUnlock ;;
  match r with
  | None => Ret false
  | Some r =>
      let acc := foldl collect (Parsed [] [] [] []) sip in
      let ipsv4 := sort_Strings (ipsv4 acc) in
      let ipsv6 := sort_Strings (ipsv6 acc) in
      trigger (Store r Fip4 ipsv4) ;;
      trigger (Store r Fip6 ipsv6) ;;
      trigger (Store r Fipv4 (pipv4 acc)) ;;
      trigger (Store r Fipv6 (pipv6 acc)) ;;
      i ← trigger (Load r Fidx);
      (if decide (i > int_sub (len ipsv4) 1) then trigger (Store r Fidx 0)
       else Ret tt) ;;
      t ← trigger Tag;
      i ← trigger (Load r Fidx);
      trigger (Println Debug
        [OStr t; OStr "idx:"; OInt i; OStr "host:"; OStr host;
         OStr "ips4:"; OStrs ipsv4; OStr "ips6:"; OStrs ipsv6]) ;;
      Ret true
  end.

(** One turn of the [for] loop of the goroutine that [AddHost] starts;
    [false] when the turn ends in [return]. *)
Definition refreshCycle (host : string) : prog bool :=
  res ← trigger (LookupHost host);
  return_ ←
    match res with
    | LookupOk ips =>
        ok ← updateHostIPs host ips;
        if negb ok then
          t ← trigger Tag;
          trigger (Println Error
            [OStr t; OStr "stop resolver for:"; OStr host]) ;;
          Ret true
        else Ret false
    | LookupErr err =>
        t ← trigger Tag;
        trigger (Println Error
          [OStr t; OStr "resolve"; OStr host; OStr "failed:"; OStr err]) ;;
        Ret false
    end;
  if return_ : bool then Ret false
  else trigger (Sleep 60) ;; Ret true.

(** The [for] loop, cut after [fuel] turns. *)
Fixpoint refreshLoop (fuel : nat) (host : string) : prog loop_end :=
  match fuel with
  | O => Ret OutOfFuel
  | S fuel' =>
      continue ← refreshCycle host;
      if continue then refreshLoop fuel' host else Ret Returned
  end.

(** The goroutine. *)
Definition refresher (fuel : nat) (host : string) : prog loop_end :=
  t ← trigger Tag;
  trigger (Println Info [OStr t; OStr "start resolver for:"; OStr host]) ;;
  refreshLoop fuel host.

End Resolver.

(** ** States of the service *)

(** The cursor is an index of the IPv4 list, and 0 when the list is empty. *)
Definition cursor_valid (r : ips) : Prop :=
  (ip4 r = [] → idx r = 0) ∧
  (ip4 r ≠ [] → 0 ≤ idx r ≤ len (ip4 r) - 1).

(** The length of a slice is an [int]. *)
Definition fits {A} (l : list A) : Prop := len l ≤ max_int.

Record wf (s : svc) : Prop := Wf {
  wf_mu : mu s = Unlocked;
  wf_alloc : ∀ h p, hosts s !! h = Some p → is_Some (heap s !! p);
  wf_inj : ∀ h1 h2 p,
    hosts s !! h1 = Some p → hosts s !! h2 = Some p → h1 = h2;
  wf_cursor : ∀ p r, heap s !! p = Some r → cursor_valid r;
  wf_fits : ∀ p r, heap s !! p = Some r → fits (ip4 r);
}.

(** The calls that change or read the service, each run as a whole: the
    exported methods and one turn of a refresh goroutine. *)
Inductive call : Type :=
| CAddHost (host : string)
| CDelHost (host : string)
| CStop
| CGetNextIP (host : string)
| CGetNextIPWithIdx (host : string)
| CGetIPs (host : string)
| CGetIPsStr (host : string)
| CDump
| CDumpPrefix (prefix : string)
| CRefresh (host : string).

Section Reachable.

Variable resolver : nat → string → lookup_result.
Variable ParseIP : string → option IP.

Local Open Scope prog_scope.

Definition exec (c : call) : prog unit :=
  match c with
  | CAddHost host => AddHost host
  | CDelHost host => DelHost host
  | CStop => Stop
  | CGetNextIP host => GetNextIP host ;; Ret tt
  | CGetNextIPWithIdx host => GetNextIPWithIdx host ;; Ret tt
  | CGetIPs host => GetIPs host ;; Ret tt
  | CGetIPsStr host => GetIPsStr host ;; Ret tt
  | CDump => Dump
  | CDumpPrefix prefix => DumpPrefix prefix
  | CRefresh host => refreshCycle ParseIP host ;; Ret tt
  end.

(** What the platform hands to a call: a lookup answers with a slice. *)
Definition call_ok (s : svc) (c : call) : Prop :=
  match c with
  | CRefresh host =>
      match resolver (lookups s) host with
      | LookupOk addrs => fits addrs
      | LookupErr _ => True
      end
  | _ => True
  end.

(** The states the service goes through when its calls run one after the
    other, from [New]. *)
Inductive reachable : svc → Prop :=
| reach_New tag : reachable (New tag)
| reach_call s c s' :
    reachable s → call_ok s c → run resolver (exec c) s = Done tt s' →
    reachable s'.

(** The record that a successful [updateHostIPs sip] leaves in place of
    [r]. *)
Definition updated (r : ips) (sip : list string) : ips :=
  let acc := foldl (collect ParseIP) (Parsed [] [] [] []) sip in
  let v4 := sort_Strings (ipsv4 acc) in
  Ips (if decide (idx r > int_sub (len v4) 1) then 0 else idx r)
      v4 (sort_Strings (ipsv6 acc)) (pipv4 acc) (pipv6 acc).

(** The partition in the words of the description: a string that parses
    is IPv6 when it contains a colon and IPv4 otherwise. *)
Definition is_v4 (ip : string) : bool :=
  bool_decide (is_Some (ParseIP ip)) && negb (Contains ip ":").
Definition is_v6 (ip : string) : bool :=
  bool_decide (is_Some (ParseIP ip)) && Contains ip ":".

End Reachable.

(** [s'] differs from [s] at most in the cursor of [host]. *)
Definition only_cursor (host : string) (s s' : svc) : Prop :=
  mu s' = mu s ∧ hosts s' = hosts s ∧ dom (heap s') = dom (heap s) ∧
  tag s' = tag s ∧ log s' = log s ∧ goroutines s' = goroutines s ∧
  written s' = written s ∧ lookups s' = lookups s ∧ slept s' = slept s ∧
  (∀ h, h ≠ host → record s' h = record s h) ∧
  match record s host with
  | Some r =>
      ∃ r', record s' host = Some r' ∧ ip4 r' = ip4 r ∧ ip6 r' = ip6 r ∧
            ipv4 r' = ipv4 r ∧ ipv6 r' = ipv6 r
  | None => record s' host = None
  end.

(** The reading under which index [i] of a binary list is the parse of
    index [i] of the string list of the same family. *)
Definition binary_in_string_order (ParseIP : string → option IP) (r : ips)
  : Prop :=
  (∀ i ip, ip4 r !! i = Some ip → ipv4 r !! i = ParseIP ip) ∧
  (∀ i ip, ip6 r !! i = Some ip → ipv6 r !! i = ParseIP ip).

(** The value a run ends with. *)
Definition value {A} (o : outcome A) : option A :=
  match o with
  | Done a _ => Some a
  | _ => None
  end.

(** The state a run ends in. *)
Definition after {A} (o : outcome A) : svc :=
  match o with
  | Done _ s => s
  | _ => New ""
  end.

(** ** Example data *)

Definition three : list string := ["10.0.0.1"; "10.0.0.2"; "10.0.0.3"].
Definition five : list string :=
  ["10.0.0.1"; "10.0.0.2"; "10.0.0.3"; "10.0.0.4"; "10.0.0.5"].
Definition two : list string := ["10.0.0.1"; "10.0.0.2"].
Definition mixed : list string := ["10.0.0.1"; "10.0.0.2"; "::1"].
Definition unsorted : list string := ["10.0.0.2"; "not-an-ip"; "10.0.0.1"].

(** A platform that answers every lookup with [addrs]. *)
Definition always (addrs : list string) : nat → string → lookup_result :=
  λ _ _, LookupOk addrs.

(** A platform that answers the first lookup with [addrs] and fails from
    then on. *)
Definition once (addrs : list string) : nat → string → lookup_result :=
  λ n _, match n with
         | O => LookupOk addrs
         | S _ => LookupErr "no such host"
         end.

(** [New] and [AddHost "example"]. *)
Definition registered : svc :=
  after (run (always []) (AddHost "example") (New "tag")).

(** [registered] after one refresh that resolves to [addrs]. *)
Definition resolved (addrs : list string) : svc :=
  after (run (once addrs) (refreshCycle Sample.sampleParseIP "example")
           registered).

(** [resolved addrs] after [n] calls of [GetNextIPWithIdx "example"]. *)
Definition advanced (addrs : list string) (n : nat) : svc :=
  after (run (once addrs) (repeat_call n (GetNextIPWithIdx "example"))
           (resolved addrs)).

(** [resolved three] after [DelHost "example"]. *)
Definition removed : svc :=
  after (run (once three) (DelHost "example") (resolved three)).

(** Two threads: a refresh that stores [second_answer] over
    [first_answer], and a reader.  The schedule lets the refresh look the
    record up and store the IPv4 strings, then the reader run, then the
    refresh finish. *)
Definition first_answer : list string := ["10.0.0.1"; "::1"].
Definition second_answer : list string := ["10.0.0.2"; "::2"].

Definition torn_pool : list (prog (option (list string * list string))) :=
  [ (updateHostIPs Sample.sampleParseIP "example" second_answer ;;
     Ret None)%prog;
    (r ← GetIPsStr "example"; Ret (Some r))%prog ].

Definition torn_schedule : list nat :=
  replicate 4 0%nat ++ replicate 5 1%nat ++ replicate 7 0%nat.

(** Two threads: the same refresh, and [DelHost] between its lookup and its
    stores. *)
Definition detached_pool : list (prog (option bool)) :=
  [ (b ← updateHostIPs Sample.sampleParseIP "example" second_answer;
     Ret (Some b))%prog;
    (DelHost "example" ;; Ret None)%prog ].

Definition detached_schedule : list nat :=
  replicate 3 0%nat ++ replicate 3 1%nat ++ replicate 8 0%nat.

(** Two threads: a refresh that stores [two] over [five], and a caller of
    [GetNextIPWithIdx].  The refresh looks the record up; the caller takes
    the lock and reads the length; the refresh stores its lists and checks
    the cursor; the caller advances the cursor and indexes. *)
Definition crash_pool : list (prog (option (string * Z))) :=
  [ (updateHostIPs Sample.sampleParseIP "example" two ;; Ret None)%prog;
    (r ← GetNextIPWithIdx "example"; Ret (Some r))%prog ].

Definition crash_schedule : list nat :=
  replicate 3 0%nat ++ replicate 3 1%nat ++ replicate 8 0%nat
    ++ replicate 5 1%nat.

(** ** Further notions *)

(** The four address lists of a record. *)
Definition lists (r : ips) : list string * list string * list IP * list IP :=
  (ip4 r, ip6 r, ipv4 r, ipv6 r).

(** What a record holds after any number of updates: sorted strings, each
    in the list of its family, and as many binary addresses as strings, the
    parses of these strings in some order. *)
Definition tidy (ParseIP : string → option IP) (r : ips) : Prop :=
  StronglySorted String.le (ip4 r) ∧
  StronglySorted String.le (ip6 r) ∧
  Forall (λ ip, is_Some (ParseIP ip) ∧ Contains ip ":" = false) (ip4 r) ∧
  Forall (λ ip, is_Some (ParseIP ip) ∧ Contains ip ":" = true) (ip6 r) ∧
  ipv4 r ≡ₚ omap ParseIP (ip4 r) ∧
  ipv6 r ≡ₚ omap ParseIP (ip6 r) ∧
  length (ipv4 r) = length (ip4 r) ∧
  length (ipv6 r) = length (ip6 r).

(** Every record of [h'] is new and empty, or comes from the record of
    [h] at the same address with the same lists or by an update. *)
Definition heap_step (ParseIP : string → option IP) (h h' : gmap ptr ips)
  : Prop :=
  ∀ p r', h' !! p = Some r' →
    r' = ips_zero ∨
    ∃ r, h !! p = Some r ∧
         (lists r' = lists r ∨ ∃ sip, r' = updated ParseIP r sip).

(** A list with the index of each element. *)
Definition indexed (l : list string) : list (string * Z) :=
  imap (λ j ip, (ip, Z.of_nat j)) l.

(** The lines of [DumpPrefix] for one host, and for the whole map: hosts in
    ascending order, for each host the IPv4 strings and then the IPv6
    strings, each family in ascending order and numbered from 0. *)
Definition host_lines (prefix : string) (s : svc) (hostName : string)
  : list string :=
  match record s hostName with
  | Some r =>
      imap (dump_line prefix "v4" hostName) (sort_Strings (ip4 r)) ++
      imap (dump_line prefix "v6" hostName) (sort_Strings (ip6 r))
  | None => []
  end.

Definition dump_lines (prefix : string) (s : svc) : list string :=
  sort_Strings (map_to_list (hosts s)).*1 ≫= host_lines prefix s.

(** Whether an access to the map or to a record is made with the mutex
    held: writes need the write lock, reads any lock. *)
Definition guarded {X} (e : event X) (m : rwmutex) : bool :=
  match e with
  | MapPut _ _ | MapDelete _ | Store _ _ _ => bool_decide (m = WLocked)
  | MapGet _ | MapRange | Load _ _ => negb (bool_decide (m = Unlocked))
  | _ => true
  end.

(** A platform whose lookups all fail. *)
Definition failing : nat → string → lookup_result :=
  λ _ _, LookupErr "no such host".

Section Discipline.

Variable resolver : nat → string → lookup_result.

(** Whether every access of the run is guarded. *)
Fixpoint accesses_locked {A} (p : prog A) (s : svc) : bool :=
  match p with
  | Ret a => true
  | Vis e k =>
      guarded e (mu s) &&
      match handle resolver e s with
      | Done x s' => accesses_locked (k x) s'
      | _ => true
      end
  end.

End Discipline.

(** What [k] calls of [GetNextIPWithIdx] in a row return for the IPv4 list
    [l] and the cursor [i]: the addresses at the cursors [i + 1], ...,
    [i + k] modulo the length, each with its cursor. *)
Definition calls_from (l : list string) (i : Z) (k : nat)
  : list (string * Z) :=
  (λ j : nat,
     let c := (i + Z.of_nat j) `mod` len l in
     (default EmptyString (l !! Z.to_nat c), c)) <$> seq 1 k.

(** A thread that cannot take a step while another holds the write lock:
    it has returned, or its next step is to take the mutex. *)
Definition waits {A} (p : prog A) : bool :=
  match p with
  | Ret _ => true
  | Vis Lock _ => true
  | Vis RLock _ => true
  | _ => false
  end.

Definition returned {A} (p : prog A) : bool :=
  match p with
  | Ret _ => true
  | Vis _ _ => false
  end.

Definition is_unlock {X} (e : event X) : bool :=
  match e with
  | Unlock => true
  | _ => false
  end.

Section Atomic.

Variable resolver : nat → string → lookup_result.

(** Whether [p], run from [s], keeps the write lock through every step up
    to an [Unlock] after which it returns, without blocking or panicking. *)
Fixpoint atomic {A} (p : prog A) (s : svc) : bool :=
  match p with
  | Ret _ => false
  | Vis e k =>
      bool_decide (mu s = WLocked) &&
      match handle resolver e s with
      | Done x s' => if is_unlock e then returned (k x) else atomic (k x) s'
      | _ => false
      end
  end.

End Atomic.

(** The first call runs to its end, then the second. *)
Definition turns_schedule : list nat :=
  replicate 9 0%nat ++ replicate 9 1%nat.

(** * Properties *)

(** ** Machine integers *)

Lemma int_wrap_small z : min_int ≤ z ≤ max_int → int_wrap z = z.
Proof.
  unfold int_wrap, min_int, max_int, int_bits. simpl Z.sub. intros H.
  rewrite Z.mod_small; lia.
Qed.

Lemma len_nonneg {A} (l : list A) : 0 ≤ len l.
Proof. unfold len. lia. Qed.

Lemma len_nil_iff {A} (l : list A) : len l = 0 ↔ l = [].
Proof. unfold len. destruct l; simpl; split; intros; (done || lia). Qed.

Lemma max_int_pos : 0 < max_int.
Proof. reflexivity. Qed.

Lemma int_sub_len {A} (l : list A) : fits l → int_sub (len l) 1 = len l - 1.
Proof.
  unfold fits, int_sub. intros H. apply int_wrap_small.
  pose proof (len_nonneg l). unfold min_int, max_int, int_bits in *.
  simpl Z.sub in *. lia.
Qed.

(** Advancing a valid cursor neither overflows nor leaves the list. *)
Lemma next_cursor (i n : Z) :
  0 ≤ i ≤ n - 1 → n ≤ max_int →
  int_rem (int_add i 1) n = (i + 1) `mod` n ∧ 0 ≤ (i + 1) `mod` n ≤ n - 1.
Proof.
  intros Hi Hn. unfold int_rem, int_add.
  rewrite int_wrap_small
    by (unfold min_int, max_int, int_bits in *; simpl Z.sub in *; lia).
  rewrite Z.rem_mod_nonneg by lia.
  pose proof (Z.mod_pos_bound (i + 1) n ltac:(lia)). lia.
Qed.

(** ** Running programs *)

Section Run.

Variable resolver : nat → string → lookup_result.

Lemma run_bind {A B} (p : prog A) (f : A → prog B) s :
  run resolver (bind p f) s =
    match run resolver p s with
    | Done a s' => run resolver (f a) s'
    | Blocked => Blocked
    | Panicked => Panicked
    end.
Proof.
  revert s. induction p as [a|X e k IH]; intros s; simpl; [done|].
  destruct (handle resolver e s); auto.
Qed.

Lemma run_trigger {X} (e : event X) s :
  run resolver (trigger e) s = handle resolver e s.
Proof. simpl. by destruct (handle resolver e s). Qed.

End Run.


(** Runs a program as far as the known lookups allow. *)
Ltac run_step :=
  cbn;
  repeat (progress
            (repeat rewrite lookup_insert_eq;
             repeat match goal with
               | H : ?m !! ?k = _ |- context [?m !! ?k] => rewrite H
               end);
          cbn).

Section Methods.

Variable resolver : nat → string → lookup_result.
Variable ParseIP : string → option IP.

Local Abbreviation run := (run resolver).

Lemma AddHost_present s host p :
  mu s = Unlocked → hosts s !! host = Some p →
  run (AddHost host) s = Done tt s.
Proof.
  destruct s; simpl; intros -> Hh. unfold AddHost. cbn. by rewrite Hh.
Qed.

Lemma AddHost_absent s host :
  mu s = Unlocked → hosts s !! host = None →
  run (AddHost host) s =
    let p := fresh (dom (heap s)) in
    Done tt (set_goroutines (goroutines s ++ [host])
              (set_hosts (<[host:=p]> (hosts s))
                (set_heap (<[p:=ips_zero]> (heap s)) s))).
Proof.
  destruct s; simpl; intros -> Hh. unfold AddHost. cbn. by rewrite Hh.
Qed.

Lemma DelHost_run s host :
  mu s = Unlocked →
  run (DelHost host) s = Done tt (set_hosts (delete host (hosts s)) s).
Proof. destruct s; simpl; intros ->. reflexivity. Qed.

Lemma GetNextIPWithIdx_unknown s host :
  mu s = Unlocked → hosts s !! host = None →
  run (GetNextIPWithIdx host) s = Done ("", -1) s.
Proof.
  destruct s; simpl; intros -> Hh. unfold GetNextIPWithIdx. cbn.
  by rewrite Hh.
Qed.

Lemma GetNextIPWithIdx_empty s host p r :
  mu s = Unlocked → hosts s !! host = Some p → heap s !! p = Some r →
  ip4 r = [] →
  run (GetNextIPWithIdx host) s = Done ("", -1) s.
Proof.
  destruct s; simpl; intros -> Hh Hp Hr. unfold GetNextIPWithIdx.
  run_step. rewrite Hr. reflexivity.
Qed.

Lemma GetNextIPWithIdx_next s host p r ip :
  mu s = Unlocked → hosts s !! host = Some p → heap s !! p = Some r →
  ip4 r ≠ [] →
  let i := int_rem (int_add (idx r) 1) (len (ip4 r)) in
  0 ≤ i → ip4 r !! Z.to_nat i = Some ip →
  run (GetNextIPWithIdx host) s =
    Done (ip, i) (set_heap (<[p:=set_field Fidx i r]> (heap s)) s).
Proof.
  destruct s; simpl; intros -> Hh Hp Hr Hi Hip. unfold GetNextIPWithIdx.
  run_step.
  destruct (decide (len (ip4 r) = 0)) as [H0|_].
  { by apply len_nil_iff in H0. }
  run_step. unfold index. rewrite decide_True by done. rewrite Hip.
  run_step. reflexivity.
Qed.

Lemma GetIPs_unknown s host :
  mu s = Unlocked → hosts s !! host = None →
  run (GetIPs host) s = Done ([], []) s.
Proof. destruct s; simpl; intros -> Hh. unfold GetIPs. by run_step. Qed.

Lemma GetIPs_known s host p r :
  mu s = Unlocked → hosts s !! host = Some p → heap s !! p = Some r →
  run (GetIPs host) s = Done (ipv4 r, ipv6 r) s.
Proof. destruct s; simpl; intros -> Hh Hp. unfold GetIPs. by run_step. Qed.

Lemma GetIPsStr_unknown s host :
  mu s = Unlocked → hosts s !! host = None →
  run (GetIPsStr host) s = Done ([], []) s.
Proof. destruct s; simpl; intros -> Hh. unfold GetIPsStr. by run_step. Qed.

Lemma GetIPsStr_known s host p r :
  mu s = Unlocked → hosts s !! host = Some p → heap s !! p = Some r →
  run (GetIPsStr host) s = Done (ip4 r, ip6 r) s.
Proof. destruct s; simpl; intros -> Hh Hp. unfold GetIPsStr. by run_step. Qed.

Lemma updateHostIPs_unknown s host sip :
  mu s = Unlocked → hosts s !! host = None →
  run (updateHostIPs ParseIP host sip) s = Done false s.
Proof.
  destruct s; simpl; intros -> Hh. unfold updateHostIPs. by run_step.
Qed.

Lemma updateHostIPs_known s host sip p r :
  mu s = Unlocked → hosts s !! host = Some p → heap s !! p = Some r →
  let r' := updated ParseIP r sip in
  run (updateHostIPs ParseIP host sip) s =
    Done true
      (set_log (log s ++ [(Debug,
          [OStr (tag s); OStr "idx:"; OInt (idx r'); OStr "host:";
           OStr host; OStr "ips4:"; OStrs (ip4 r'); OStr "ips6:";
           OStrs (ip6 r')])])
        (set_heap (<[p:=r']> (heap s)) s)).
Proof.
  destruct s; simpl; intros -> Hh Hp. unfold updateHostIPs, updated.
  run_step.
  destruct (decide (idx r > _)); run_step;
    unfold set_log, set_heap; simpl; by rewrite ?insert_insert_eq.
Qed.

End Methods.

Section Loops.

Variable resolver : nat → string → lookup_result.
Variable ParseIP : string → option IP.

Local Abbreviation run := (run resolver).

Lemma lookup_foldl_delete (m : gmap string ptr) ks h :
  foldl (λ m k, delete k m) m ks !! h =
    if decide (h ∈ ks) then None else m !! h.
Proof.
  revert m. induction ks as [|k ks IH]; intros m.
  { case_decide as Hin; [by apply elem_of_nil in Hin | done]. }
  simpl. rewrite IH.
  destruct (decide (h ∈ ks)) as [Hin|Hnin].
  { rewrite decide_True; [done | by apply list_elem_of_further]. }
  destruct (decide (h = k)) as [->|Hne].
  { rewrite decide_True; [apply lookup_delete_eq | apply list_elem_of_here]. }
  rewrite decide_False; [by apply lookup_delete_ne|].
  rewrite elem_of_cons. by intros [?|?].
Qed.

Lemma map_keys_lookup (m : gmap string ptr) h :
  h ∈ (map_to_list m).*1 ↔ is_Some (m !! h).
Proof.
  rewrite list_elem_of_fmap. split.
  - intros [[k p] [-> Hin]]. apply elem_of_map_to_list in Hin. eauto.
  - intros [p Hp]. exists (h, p). split; [done|].
    by apply elem_of_map_to_list.
Qed.

Lemma for_each_delete ks s :
  run (for_each ks (λ host, trigger (MapDelete host))) s =
    Done tt (set_hosts (foldl (λ m k, delete k m) (hosts s) ks) s).
Proof.
  revert s. induction ks as [|k ks IH]; intros s.
  { by destruct s. }
  cbn. rewrite IH. reflexivity.
Qed.

(** [Stop] leaves the map empty. *)
Lemma Stop_run s :
  mu s = Unlocked → run Stop s = Done tt (set_hosts ∅ s).
Proof.
  destruct s as [m hs t lg hp g w n sl]; simpl; intros ->. unfold Stop.
  cbn. rewrite run_bind, for_each_delete. cbn. f_equal.
  unfold set_mu, set_hosts; simpl. f_equal. apply map_eq. intros h.
  rewrite lookup_foldl_delete, lookup_empty.
  destruct (decide _) as [|Hn]; [done|].
  destruct (hs !! h) eqn:Hh; [|done].
  exfalso. apply Hn, map_keys_lookup. eauto.
Qed.

Lemma for_each_idx_Fprintf (f : nat → string → string) i l s :
  ∃ w, run (for_each_idx i l (λ i ip, trigger (Fprintf (f i ip)))) s =
         Done tt (set_written w s).
Proof.
  revert i s. induction l as [|x l IH]; intros i s.
  { exists (written s). by destruct s. }
  cbn. destruct (IH (S i) (set_written (written s ++ [f i x]) s)) as [w Hw].
  exists w. rewrite Hw. reflexivity.
Qed.

Lemma dump_hosts prefix hs s :
  (∀ h, h ∈ hs → ∃ p, hosts s !! h = Some p ∧ is_Some (heap s !! p)) →
  ∃ w, run (for_each hs (λ hostName,
         host ← trigger (MapGet hostName);
         p ← deref host;
         l ← trigger (Load p Fip4);
         for_each_idx 0 (sort_Strings l) (λ i ip,
           trigger (Fprintf (dump_line prefix "v4" hostName i ip))) ;;
         p ← deref host;
         l ← trigger (Load p Fip6);
         for_each_idx 0 (sort_Strings l) (λ i ip,
           trigger (Fprintf (dump_line prefix "v6" hostName i ip))))%prog) s =
       Done tt (set_written w s).
Proof.
  revert s. induction hs as [|h hs IH]; intros s Hall.
  { exists (written s). by destruct s. }
  destruct (Hall h) as (p & Hp & r & Hr); [apply list_elem_of_here|].
  destruct (for_each_idx_Fprintf (dump_line prefix "v4" h) 0
              (sort_Strings (ip4 r)) s) as [w1 H1].
  destruct (for_each_idx_Fprintf (dump_line prefix "v6" h) 0
              (sort_Strings (ip6 r)) (set_written w1 s)) as [w2 H2].
  destruct (IH (set_written w2 (set_written w1 s))) as [w Hw].
  { intros h' Hin. apply Hall. by apply list_elem_of_further. }
  exists w. cbn. rewrite Hp. cbn. rewrite Hr. rewrite !run_bind, H1.
  cbn. rewrite Hr. rewrite H2. cbn in Hw |- *. rewrite Hw. reflexivity.
Qed.

Lemma DumpPrefix_run prefix s :
  mu s = Unlocked →
  (∀ h p, hosts s !! h = Some p → is_Some (heap s !! p)) →
  ∃ w, run (DumpPrefix prefix) s = Done tt (set_written w s).
Proof.
  intros Hmu Hall. unfold DumpPrefix.
  destruct s as [m hs t lg hp g w n sl]; simpl in *; subst m.
  match goal with |- context [for_each ?l ?b] =>
    destruct (dump_hosts prefix l
      (set_mu (RLocked 0) (Svc Unlocked hs t lg hp g w n sl))) as [w' Hw]
  end.
  { intros h Hin. simpl.
    assert (is_Some (hs !! h)) as [p Hp].
    { apply map_keys_lookup. unfold sort_Strings in Hin.
      by rewrite merge_sort_Permutation in Hin. }
    eauto. }
  exists w'. cbn. rewrite run_bind. cbn in Hw |- *. rewrite Hw. reflexivity.
Qed.

End Loops.

Section Refresh.

Variable resolver : nat → string → lookup_result.
Variable ParseIP : string → option IP.

Local Abbreviation run := (run resolver).

Lemma refreshCycle_failed s host err :
  resolver (lookups s) host = LookupErr err →
  run (refreshCycle ParseIP host) s =
    Done true
      (set_slept (slept s + 60)
        (set_log (log s ++ [(Error,
            [OStr (tag s); OStr "resolve"; OStr host; OStr "failed:";
             OStr err])])
          (set_lookups (S (lookups s)) s))).
Proof. intros H. unfold refreshCycle. cbn. rewrite H. reflexivity. Qed.

Lemma refreshCycle_resolved s host addrs :
  resolver (lookups s) host = LookupOk addrs →
  run (refreshCycle ParseIP host) s =
    match run (updateHostIPs ParseIP host addrs)
              (set_lookups (S (lookups s)) s) with
    | Done true s' => Done true (set_slept (slept s' + 60) s')
    | Done false s' =>
        Done false
          (set_log (log s' ++ [(Error,
             [OStr (tag s'); OStr "stop resolver for:"; OStr host])]) s')
    | Blocked => Blocked
    | Panicked => Panicked
    end.
Proof.
  intros H. unfold refreshCycle. rewrite run_bind, run_trigger.
  cbn [handle]. rewrite H. rewrite !run_bind.
  destruct (run (updateHostIPs ParseIP host addrs)
              (set_lookups (S (lookups s)) s)) as [[] s'| |];
    reflexivity.
Qed.

End Refresh.

(** ** The invariant *)

Lemma wf_frame s s' :
  mu s' = mu s → hosts s' = hosts s → heap s' = heap s → wf s → wf s'.
Proof.
  intros Hm Hh Hp [? ? ? ? ?].
  split; rewrite ?Hm, ?Hh, ?Hp; try rewrite Hh; try rewrite Hp; eauto.
Qed.

Lemma wf_store s p r r' :
  wf s → heap s !! p = Some r → cursor_valid r' → fits (ip4 r') →
  wf (set_heap (<[p:=r']> (heap s)) s).
Proof.
  intros [Hm Ha Hi Hc Hf] Hp Hc' Hf'. split; simpl; try done.
  - intros h q Hq. destruct (decide (p = q)) as [->|Hne].
    + rewrite lookup_insert_eq. eauto.
    + rewrite lookup_insert_ne by done. eauto.
  - intros q rq. destruct (decide (p = q)) as [->|Hne].
    + rewrite lookup_insert_eq. by intros [= <-].
    + rewrite lookup_insert_ne by done. eauto.
  - intros q rq. destruct (decide (p = q)) as [->|Hne].
    + rewrite lookup_insert_eq. by intros [= <-].
    + rewrite lookup_insert_ne by done. eauto.
Qed.

Lemma wf_shrink s m :
  wf s → (∀ h p, m !! h = Some p → hosts s !! h = Some p) →
  wf (set_hosts m s).
Proof. intros [Hm Ha Hi Hc Hf] Hsub. split; simpl; eauto. Qed.

Lemma cursor_valid_zero : cursor_valid ips_zero.
Proof. split; simpl; [done | by intros []]. Qed.

Lemma wf_register s host :
  wf s → hosts s !! host = None →
  let p := fresh (dom (heap s)) in
  wf (set_goroutines (goroutines s ++ [host])
       (set_hosts (<[host:=p]> (hosts s))
         (set_heap (<[p:=ips_zero]> (heap s)) s))).
Proof.
  intros [Hm Ha Hi Hc Hf] Hh p.
  assert (heap s !! p = None) as Hfresh.
  { apply not_elem_of_dom. apply is_fresh. }
  assert (∀ h, hosts s !! h ≠ Some p) as Hnot.
  { intros h Hp. destruct (Ha h p Hp) as [r Hr]. congruence. }
  split; simpl; try done.
  - intros h q. destruct (decide (h = host)) as [->|Hne].
    + rewrite lookup_insert_eq. intros [= <-]. rewrite lookup_insert_eq. eauto.
    + rewrite lookup_insert_ne by done. intros Hq.
      rewrite lookup_insert_ne by (intros ->; by eapply Hnot). eauto.
  - intros h1 h2 q.
    destruct (decide (h1 = host)) as [->|Hne1];
      destruct (decide (h2 = host)) as [->|Hne2];
      rewrite ?lookup_insert_eq, ?lookup_insert_ne by done; try done.
    + intros [= <-] Hq. by destruct (Hnot h2).
    + intros Hq [= <-]. by destruct (Hnot h1).
    + eauto.
  - intros q rq. destruct (decide (p = q)) as [<-|Hne].
    + rewrite lookup_insert_eq. intros [= <-]. apply cursor_valid_zero.
    + rewrite lookup_insert_ne by done. eauto.
  - intros q rq. destruct (decide (p = q)) as [<-|Hne].
    + rewrite lookup_insert_eq. by intros [= <-].
    + rewrite lookup_insert_ne by done. eauto.
Qed.

Lemma wf_New tag : wf (New tag).
Proof. split; simpl; try done; intros *; by rewrite lookup_empty. Qed.

(** ** Sorting and partitioning *)

Lemma sort_Strings_Permutation l : sort_Strings l ≡ₚ l.
Proof. apply merge_sort_Permutation. Qed.

Lemma sort_Strings_Sorted l : StronglySorted String.le (sort_Strings l).
Proof. apply StronglySorted_merge_sort; apply _. Qed.

(** Whatever algorithm [sort.Strings] runs, this is its result: the sorted
    arrangement of a list of strings is unique. *)
Lemma sort_Strings_unique l l' :
  StronglySorted String.le l' → l' ≡ₚ l → l' = sort_Strings l.
Proof.
  intros Hs Hp. apply (StronglySorted_unique String.le); [done| |].
  - apply sort_Strings_Sorted.
  - by rewrite sort_Strings_Permutation.
Qed.

Lemma sort_Strings_length l : length (sort_Strings l) = length l.
Proof. by rewrite sort_Strings_Permutation. Qed.

Lemma len_sort_Strings l : len (sort_Strings l) = len l.
Proof. unfold len. by rewrite sort_Strings_length. Qed.

Section Partition.

Variable ParseIP : string → option IP.

Local Abbreviation v4 := (is_v4 ParseIP).
Local Abbreviation v6 := (is_v6 ParseIP).

(** The loop of [updateHostIPs] computes the partition of the
    description: the strings that parse, split on the colon, each list in
    the order of the lookup's answer. *)
Lemma collect_partition acc sip :
  foldl (collect ParseIP) acc sip =
    Parsed (ipsv4 acc ++ filter v4 sip)
           (ipsv6 acc ++ filter v6 sip)
           (pipv4 acc ++ omap ParseIP (filter v4 sip))
           (pipv6 acc ++ omap ParseIP (filter v6 sip)).
Proof.
  revert acc. induction sip as [|ip sip IH]; intros acc.
  { destruct acc; simpl. by rewrite !app_nil_r. }
  simpl. rewrite IH. unfold collect, is_v4, is_v6.
  rewrite !filter_cons.
  destruct (ParseIP ip) as [ipp|] eqn:Hp.
  - rewrite bool_decide_true by eauto.
    destruct (Contains ip ":"); simpl; rewrite ?Hp; simpl;
      by rewrite <- ?app_assoc.
  - rewrite bool_decide_false by (by intros [? ?]). done.
Qed.

Lemma updated_ip4 r sip :
  ip4 (updated ParseIP r sip) = sort_Strings (filter v4 sip).
Proof. unfold updated. by rewrite collect_partition. Qed.

Lemma updated_fits r sip : fits sip → fits (ip4 (updated ParseIP r sip)).
Proof.
  unfold fits. rewrite updated_ip4, len_sort_Strings. unfold len.
  pose proof (length_filter v4 sip). lia.
Qed.

Lemma updated_cursor r sip :
  0 ≤ idx r → fits sip → cursor_valid (updated ParseIP r sip).
Proof.
  intros Hi Hf. pose proof (updated_fits r sip Hf) as Hf'.
  unfold updated in *. simpl in *.
  set (l4 := sort_Strings _) in *. rewrite (int_sub_len l4) by done.
  pose proof (len_nonneg l4). pose proof (len_nil_iff l4) as Hnil.
  split; simpl; intros Hl4; case_decide; try lia.
  - apply Hnil in Hl4. lia.
  - assert (len l4 ≠ 0) by (by rewrite Hnil). lia.
Qed.

End Partition.

Lemma cursor_nonneg r : cursor_valid r → 0 ≤ idx r.
Proof.
  intros [H0 H1]. destruct (decide (ip4 r = [])) as [He|Hne].
  - rewrite (H0 He). done.
  - by apply H1.
Qed.

(** ** Every call keeps the invariant *)

Section Invariant.

Variable resolver : nat → string → lookup_result.
Variable ParseIP : string → option IP.

Local Abbreviation run := (run resolver).
Local Abbreviation reachable := (reachable resolver ParseIP).

Lemma record_Some s host r :
  record s host = Some r ↔
  ∃ p, hosts s !! host = Some p ∧ heap s !! p = Some r.
Proof.
  unfold record. destruct (hosts s !! host) as [p|]; simpl.
  - split; [eauto | by intros (? & [= <-] & ?)].
  - split; [done | by intros (? & ? & ?)].
Qed.

Lemma record_None s host :
  wf s → record s host = None ↔ hosts s !! host = None.
Proof.
  intros Hwf. unfold record. destruct (hosts s !! host) as [p|] eqn:Hp; simpl.
  - destruct (wf_alloc s Hwf host p Hp) as [r ->]. done.
  - done.
Qed.

(** The cursor after one more step, and the state that holds it. *)
Lemma GetNextIPWithIdx_step s host p r :
  wf s → hosts s !! host = Some p → heap s !! p = Some r → ip4 r ≠ [] →
  let i := (idx r + 1) `mod` len (ip4 r) in
  let s' := set_heap (<[p:=set_field Fidx i r]> (heap s)) s in
  ∃ ip, ip4 r !! Z.to_nat i = Some ip ∧ 0 ≤ i ≤ len (ip4 r) - 1 ∧
        run (GetNextIPWithIdx host) s = Done (ip, i) s' ∧ wf s'.
Proof.
  intros Hwf Hh Hp Hne i s'.
  destruct (wf_cursor s Hwf p r Hp) as [_ Hc]. specialize (Hc Hne).
  pose proof (wf_fits s Hwf p r Hp) as Hf.
  destruct (next_cursor (idx r) (len (ip4 r)) Hc Hf) as [Hi Hrange].
  fold i in Hi, Hrange.
  destruct (lookup_lt_is_Some_2 (ip4 r) (Z.to_nat i)) as [ip Hip].
  { unfold len in Hrange. lia. }
  exists ip. split; [done|]. split; [lia|]. split.
  - subst s'. rewrite <- Hi.
    apply (GetNextIPWithIdx_next resolver s host p r ip);
      rewrite ?Hi; try done; [apply Hwf | lia].
  - by apply (wf_store s p r).
Qed.

Lemma GetNextIPWithIdx_wf s host :
  wf s → ∃ res s', run (GetNextIPWithIdx host) s = Done res s' ∧ wf s'.
Proof.
  intros Hwf. destruct (hosts s !! host) as [p|] eqn:Hh.
  - destruct (wf_alloc s Hwf host p Hh) as [r Hp].
    destruct (decide (ip4 r = [])) as [He|Hne].
    + exists ("", -1), s. split; [|done].
      by apply (GetNextIPWithIdx_empty resolver s host p r); try apply Hwf.
    + destruct (GetNextIPWithIdx_step s host p r) as (ip & _ & _ & Hrun & Hwf');
        try done.
      eauto.
  - exists ("", -1), s. split; [|done].
    by apply GetNextIPWithIdx_unknown; try apply Hwf.
Qed.

Lemma updateHostIPs_wf s host sip :
  wf s → fits sip →
  ∃ b s', run (updateHostIPs ParseIP host sip) s = Done b s' ∧ wf s'.
Proof.
  intros Hwf Hfit. destruct (hosts s !! host) as [p|] eqn:Hh.
  - destruct (wf_alloc s Hwf host p Hh) as [r Hp].
    eexists _, _. split.
    + apply (updateHostIPs_known resolver ParseIP s host sip p r);
        try done. apply Hwf.
    + eapply wf_frame;
        [..|apply (wf_store s p r (updated ParseIP r sip) Hwf Hp)];
        [reflexivity..| |].
      * apply updated_cursor; [|done].
        apply cursor_nonneg, (wf_cursor s Hwf p r Hp).
      * by apply updated_fits.
  - exists false, s. split; [|done].
    by apply updateHostIPs_unknown; try apply Hwf.
Qed.

Lemma refreshCycle_wf s host :
  wf s → call_ok resolver s (CRefresh host) →
  ∃ b s', run (refreshCycle ParseIP host) s = Done b s' ∧ wf s'.
Proof.
  intros Hwf Hok. simpl in Hok.
  destruct (resolver (lookups s) host) as [addrs|err] eqn:Hres.
  - rewrite (refreshCycle_resolved resolver ParseIP s host addrs Hres).
    destruct (updateHostIPs_wf (set_lookups (S (lookups s)) s) host addrs)
      as (b & s' & -> & Hwf'); [by apply (wf_frame s) | done |].
    destruct b; eexists _, _; (split; [reflexivity|]);
      by apply (wf_frame s').
  - rewrite (refreshCycle_failed resolver ParseIP s host err Hres).
    eexists _, _. split; [reflexivity|]. by apply (wf_frame s).
Qed.

Lemma exec_wf s c :
  wf s → call_ok resolver s c →
  ∃ s', run (exec ParseIP c) s = Done tt s' ∧ wf s'.
Proof.
  intros Hwf Hok. pose proof (wf_mu s Hwf) as Hmu.
  destruct c as [h|h| |h|h|h|h| |prefix|h]; unfold exec.
  - destruct (hosts s !! h) as [p|] eqn:Hh.
    + exists s. split; [|done]. by apply (AddHost_present resolver s h p).
    + eexists. split; [by apply AddHost_absent|]. by apply wf_register.
  - eexists. split; [by apply DelHost_run|]. apply wf_shrink; [done|].
    intros h' p. destruct (decide (h = h')) as [->|Hne].
    * by rewrite lookup_delete_eq.
    * by rewrite lookup_delete_ne.
  - eexists. split; [by apply Stop_run|]. apply wf_shrink; [done|].
    intros h' p. by rewrite lookup_empty.
  - destruct (GetNextIPWithIdx_wf s h Hwf) as ([ip i] & s' & Hrun & Hwf').
    exists s'. split; [|done]. unfold GetNextIP.
    rewrite !run_bind, Hrun. reflexivity.
  - destruct (GetNextIPWithIdx_wf s h Hwf) as (res & s' & Hrun & Hwf').
    exists s'. split; [|done]. rewrite run_bind, Hrun. reflexivity.
  - exists s. split; [|done]. rewrite run_bind.
    destruct (hosts s !! h) as [p|] eqn:Hh.
    + destruct (wf_alloc s Hwf h p Hh) as [r Hp].
      by rewrite (GetIPs_known resolver s h p r).
    + by rewrite GetIPs_unknown.
  - exists s. split; [|done]. rewrite run_bind.
    destruct (hosts s !! h) as [p|] eqn:Hh.
    + destruct (wf_alloc s Hwf h p Hh) as [r Hp].
      by rewrite (GetIPsStr_known resolver s h p r).
    + by rewrite GetIPsStr_unknown.
  - destruct (DumpPrefix_run resolver "" s Hmu (wf_alloc s Hwf)) as [w Hw].
    eexists. split; [exact Hw|]. by apply (wf_frame s).
  - destruct (DumpPrefix_run resolver prefix s Hmu (wf_alloc s Hwf))
      as [w Hw].
    eexists. split; [exact Hw|]. by apply (wf_frame s).
  - destruct (refreshCycle_wf s h Hwf Hok) as (b & s' & Hrun & Hwf').
    exists s'. split; [|done]. rewrite run_bind, Hrun. reflexivity.
Qed.

Lemma reachable_wf s : reachable s → wf s.
Proof.
  induction 1 as [tag|s c s' _ IH Hok Hrun]; [apply wf_New|].
  destruct (exec_wf s c IH Hok) as (s'' & Hrun' & Hwf).
  rewrite Hrun in Hrun'. by injection Hrun' as ->.
Qed.

End Invariant.

(** ** Records behind the map *)

Lemma record_store_same s host p r' :
  hosts s !! host = Some p →
  record (set_heap (<[p:=r']> (heap s)) s) host = Some r'.
Proof.
  intros Hh. unfold record. simpl. rewrite Hh. simpl.
  apply lookup_insert_eq.
Qed.

Lemma record_store_other s host h p r' :
  wf s → hosts s !! host = Some p → h ≠ host →
  record (set_heap (<[p:=r']> (heap s)) s) h = record s h.
Proof.
  intros Hwf Hh Hne. unfold record. simpl.
  destruct (hosts s !! h) as [q|] eqn:Hq; simpl; [|done].
  apply lookup_insert_ne. intros ->. apply Hne.
  by apply (wf_inj s Hwf h host q).
Qed.

Section RoundRobin.

Variable resolver : nat → string → lookup_result.
Variable ParseIP : string → option IP.

Local Abbreviation run := (run resolver).
Local Abbreviation reachable := (reachable resolver ParseIP).

Lemma GetNextIPWithIdx_record s host r :
  wf s → record s host = Some r → ip4 r ≠ [] →
  let i := (idx r + 1) `mod` len (ip4 r) in
  ∃ ip s', run (GetNextIPWithIdx host) s = Done (ip, i) s' ∧
           ip4 r !! Z.to_nat i = Some ip ∧
           record s' host = Some (set_field Fidx i r) ∧ wf s'.
Proof.
  intros Hwf Hrec Hne i. apply record_Some in Hrec as (p & Hh & Hp).
  destruct (GetNextIPWithIdx_step resolver s host p r Hwf Hh Hp Hne)
    as (ip & Hip & _ & Hrun & Hwf').
  exists ip. eexists. split; [exact Hrun|]. split; [exact Hip|].
  split; [by apply record_store_same | exact Hwf'].
Qed.

(** C1.  For a registered host with a non-empty IPv4 list,
    [GetNextIPWithIdx] moves the cursor one step forward modulo the number
    of IPv4 addresses, stores it, and returns the address at the new
    cursor together with the new cursor.  With the three addresses
    10.0.0.1, 10.0.0.2, 10.0.0.3 and the cursor at 0, four calls in a row
    return the addresses at the indices 1, 2, 0 and 1. *)
Theorem GetNextIPWithIdx_round_robin s host r :
  reachable s → record s host = Some r → ip4 r ≠ [] →
  let i := (idx r + 1) `mod` len (ip4 r) in
  (∃ ip s', run (GetNextIPWithIdx host) s = Done (ip, i) s' ∧
            ip4 r !! Z.to_nat i = Some ip ∧
            record s' host = Some (set_field Fidx i r)) ∧
  (ip4 r = three → idx r = 0 →
   value (run (repeat_call 4 (GetNextIPWithIdx host)) s) =
     Some [("10.0.0.2", 1); ("10.0.0.3", 2); ("10.0.0.1", 0);
           ("10.0.0.2", 1)]).
Proof.
  intros Hreach Hrec Hne i.
  pose proof (reachable_wf resolver ParseIP s Hreach) as Hwf.
  split.
  { destruct (GetNextIPWithIdx_record s host r Hwf Hrec Hne)
      as (ip & s' & Hrun & Hip & Hrec' & _).
    by exists ip, s'. }
  intros H3 H0. clear i.
  assert (∀ s r, wf s → record s host = Some r → ip4 r = three →
            ∃ s', run (GetNextIPWithIdx host) s =
                    Done (default "" (three !! Z.to_nat ((idx r + 1) `mod` 3)),
                          (idx r + 1) `mod` 3) s' ∧
                  record s' host =
                    Some (set_field Fidx ((idx r + 1) `mod` 3) r) ∧ wf s')
    as Hstep.
  { clear. intros s r Hwf Hrec H3.
    destruct (GetNextIPWithIdx_record s host r Hwf Hrec)
      as (ip & s' & Hrun & Hip & Hrec' & Hwf'); [by rewrite H3|].
    rewrite H3 in Hrun, Hip, Hrec'. change (len three) with 3 in *.
    exists s'. rewrite Hip. by simpl. }
  destruct (Hstep s r Hwf Hrec H3) as (s1 & Hrun1 & Hrec1 & Hwf1).
  destruct (Hstep s1 _ Hwf1 Hrec1 H3) as (s2 & Hrun2 & Hrec2 & Hwf2).
  destruct (Hstep s2 _ Hwf2 Hrec2 H3) as (s3 & Hrun3 & Hrec3 & Hwf3).
  destruct (Hstep s3 _ Hwf3 Hrec3 H3) as (s4 & Hrun4 & _ & _).
  simpl idx in *. rewrite H0 in *.
  cbn [repeat_call]. rewrite !run_bind, Hrun1, !run_bind, Hrun2.
  rewrite !run_bind, Hrun3, !run_bind, Hrun4. reflexivity.
Qed.

End RoundRobin.

Lemma reachable_registered res P : reachable res P registered.
Proof.
  apply (reach_call res P (New "tag") (CAddHost "example")).
  - apply reach_New.
  - exact I.
  - vm_compute. reflexivity.
Qed.

Ltac reach_from s c :=
  apply (reach_call _ _ s c);
  [ | first [exact I | vm_compute; discriminate] | vm_compute; reflexivity ].

Lemma reachable_resolved_once_three :
  reachable (once three) Sample.sampleParseIP (resolved three).
Proof.
  reach_from registered (CRefresh "example"). apply reachable_registered.
Qed.

Lemma GetNextIPWithIdx_round_robin_witness :
  reachable (once three) Sample.sampleParseIP (resolved three) ∧
  record (resolved three) "example" =
    Some (Ips 0 three [] (omap Sample.sampleParseIP three) []) ∧
  value (run (once three) (repeat_call 4 (GetNextIPWithIdx "example"))
           (resolved three)) =
    Some [("10.0.0.2", 1); ("10.0.0.3", 2); ("10.0.0.1", 0); ("10.0.0.2", 1)].
Proof.
  assert (record (resolved three) "example" =
            Some (Ips 0 three [] (omap Sample.sampleParseIP three) []))
    as Hrec by (vm_compute; reflexivity).
  split; [exact reachable_resolved_once_three|]. split; [exact Hrec|].
  apply (GetNextIPWithIdx_round_robin (once three) Sample.sampleParseIP
           (resolved three) "example" _ reachable_resolved_once_three Hrec);
    [discriminate | reflexivity | reflexivity].
Defined.

Section Cursor.

Variable resolver : nat → string → lookup_result.
Variable ParseIP : string → option IP.

Local Abbreviation run := (run resolver).
Local Abbreviation reachable := (reachable resolver ParseIP).

Lemma wf_record_valid s host r :
  wf s → record s host = Some r → cursor_valid r.
Proof.
  intros Hwf Hrec. apply record_Some in Hrec as (p & _ & Hp).
  by apply (wf_cursor s Hwf p r).
Qed.

Lemma updateHostIPs_record s host sip r :
  wf s → record s host = Some r →
  ∃ s', run (updateHostIPs ParseIP host sip) s = Done true s' ∧
        record s' host = Some (updated ParseIP r sip) ∧
        (∀ h, h ≠ host → record s' h = record s h).
Proof.
  intros Hwf Hrec. apply record_Some in Hrec as (p & Hh & Hp).
  eexists. split.
  { apply (updateHostIPs_known resolver ParseIP s host sip p r);
      [apply Hwf | done..]. }
  split.
  - by apply (record_store_same s host p).
  - intros h Hne. by apply (record_store_other s host h p).
Qed.


End Cursor.

Lemma reachable_advanced_five :
  reachable (once five) Sample.sampleParseIP (advanced five 3).
Proof.
  reach_from (advanced five 2) (CGetNextIPWithIdx "example").
  reach_from (advanced five 1) (CGetNextIPWithIdx "example").
  reach_from (resolved five) (CGetNextIPWithIdx "example").
  reach_from registered (CRefresh "example").
  apply reachable_registered.
Qed.


Section Update.

Variable resolver : nat → string → lookup_result.
Variable ParseIP : string → option IP.

Local Abbreviation run := (run resolver).
Local Abbreviation reachable := (reachable resolver ParseIP).
Local Abbreviation v4 := (is_v4 ParseIP).
Local Abbreviation v6 := (is_v6 ParseIP).

Lemma updated_fields r sip :
  let r' := updated ParseIP r sip in
  ip4 r' = sort_Strings (filter v4 sip) ∧
  ip6 r' = sort_Strings (filter v6 sip) ∧
  ipv4 r' = omap ParseIP (filter v4 sip) ∧
  ipv6 r' = omap ParseIP (filter v6 sip).
Proof. unfold updated. rewrite collect_partition. by simpl. Qed.

Lemma is_v4_spec ip :
  v4 ip ↔ is_Some (ParseIP ip) ∧ Contains ip ":" = false.
Proof.
  unfold is_v4. rewrite andb_True, bool_decide_spec.
  destruct (Contains ip ":"); simpl; intuition congruence.
Qed.

Lemma is_v6_spec ip :
  v6 ip ↔ is_Some (ParseIP ip) ∧ Contains ip ":" = true.
Proof.
  unfold is_v6. rewrite andb_True, bool_decide_spec.
  destruct (Contains ip ":"); simpl; intuition congruence.
Qed.

(** C3, as the code has it.  After every successful update the string
    lists of both families are sorted; the binary lists hold the parses of
    the same strings, in the order of the lookup's answer. *)
Theorem update_sorts_strings s host r sip :
  reachable s → record s host = Some r →
  ∃ s' r', run (updateHostIPs ParseIP host sip) s = Done true s' ∧
           record s' host = Some r' ∧
           StronglySorted String.le (ip4 r') ∧
           StronglySorted String.le (ip6 r') ∧
           ip4 r' ≡ₚ filter v4 sip ∧
           ip6 r' ≡ₚ filter v6 sip ∧
           ipv4 r' = omap ParseIP (filter v4 sip) ∧
           ipv6 r' = omap ParseIP (filter v6 sip) ∧
           ipv4 r' ≡ₚ omap ParseIP (ip4 r') ∧
           ipv6 r' ≡ₚ omap ParseIP (ip6 r').
Proof.
  intros Hreach Hrec.
  pose proof (reachable_wf resolver ParseIP s Hreach) as Hwf.
  destruct (updateHostIPs_record resolver ParseIP s host sip r Hwf Hrec)
    as (s' & Hrun & Hrec' & _).
  destruct (updated_fields r sip) as (H4 & H6 & Hb4 & Hb6).
  exists s', (updated ParseIP r sip). rewrite H4, H6, Hb4, Hb6.
  split_and!; try done.
  - apply sort_Strings_Sorted.
  - apply sort_Strings_Sorted.
  - apply sort_Strings_Permutation.
  - apply sort_Strings_Permutation.
  - by rewrite sort_Strings_Permutation.
  - by rewrite sort_Strings_Permutation.
Qed.

(** C6.  A successful update stores, for each family, the sorted list of
    the strings of the lookup's answer that parse and that contain a colon
    (IPv6) or do not (IPv4), and the parses of these strings; a string
    that does not parse is in neither list.  The answer 10.0.0.1,
    10.0.0.2, ::1 gives the IPv4 strings 10.0.0.1, 10.0.0.2 and the IPv6
    string ::1. *)
Theorem update_partitions s host r sip :
  reachable s → record s host = Some r →
  ∃ s' r', run (updateHostIPs ParseIP host sip) s = Done true s' ∧
           record s' host = Some r' ∧
           ip4 r' = sort_Strings (filter v4 sip) ∧
           ip6 r' = sort_Strings (filter v6 sip) ∧
           ipv4 r' = omap ParseIP (filter v4 sip) ∧
           ipv6 r' = omap ParseIP (filter v6 sip) ∧
           StronglySorted String.le (ip4 r') ∧
           StronglySorted String.le (ip6 r') ∧
           (∀ ip, ip ∈ ip4 r' ↔
              ip ∈ sip ∧ is_Some (ParseIP ip) ∧
              Contains ip ":" = false) ∧
           (∀ ip, ip ∈ ip6 r' ↔
              ip ∈ sip ∧ is_Some (ParseIP ip) ∧
              Contains ip ":" = true) ∧
           (sip = mixed → Forall (λ ip, is_Some (ParseIP ip)) mixed →
            ip4 r' = ["10.0.0.1"; "10.0.0.2"] ∧ ip6 r' = ["::1"]).
Proof.
  intros Hreach Hrec.
  pose proof (reachable_wf resolver ParseIP s Hreach) as Hwf.
  destruct (updateHostIPs_record resolver ParseIP s host sip r Hwf Hrec)
    as (s' & Hrun & Hrec' & _).
  destruct (updated_fields r sip) as (H4 & H6 & Hb4 & Hb6).
  exists s', (updated ParseIP r sip). rewrite H4, H6, Hb4, Hb6.
  split_and!; try done.
  - apply sort_Strings_Sorted.
  - apply sort_Strings_Sorted.
  - intros ip.
    rewrite sort_Strings_Permutation, list_elem_of_filter, is_v4_spec.
    tauto.
  - intros ip.
    rewrite sort_Strings_Permutation, list_elem_of_filter, is_v6_spec.
    tauto.
  - intros -> Hall. unfold mixed in *.
    rewrite !Forall_cons in Hall. destruct Hall as (Ha & Hb & Hc & _).
    split.
    + rewrite !filter_cons, filter_nil.
      rewrite !decide_True by (by apply is_v4_spec).
      rewrite decide_False; [reflexivity|].
      rewrite is_v4_spec. by intros [_ ?].
    + rewrite !filter_cons, filter_nil.
      rewrite !decide_False by (rewrite is_v6_spec; by intros [_ ?]).
      rewrite decide_True by (by apply is_v6_spec). reflexivity.
Qed.

End Update.

Section Queries.

Variable resolver : nat → string → lookup_result.
Variable ParseIP : string → option IP.

Local Abbreviation run := (run resolver).
Local Abbreviation reachable := (reachable resolver ParseIP).

Lemma GetNextIP_run s host ip i s' :
  run (GetNextIPWithIdx host) s = Done (ip, i) s' →
  run (GetNextIP host) s = Done ip s'.
Proof. intros H. unfold GetNextIP. by rewrite run_bind, H. Qed.

Lemma GetIPs_run s host :
  wf s → ∃ res, run (GetIPs host) s = Done res s.
Proof.
  intros Hwf. destruct (hosts s !! host) as [p|] eqn:Hh.
  - destruct (wf_alloc s Hwf host p Hh) as [r Hp]. eexists.
    by apply (GetIPs_known resolver s host p r); [apply Hwf|..].
  - eexists. by apply GetIPs_unknown; [apply Hwf|].
Qed.

Lemma GetIPsStr_run s host :
  wf s → ∃ res, run (GetIPsStr host) s = Done res s.
Proof.
  intros Hwf. destruct (hosts s !! host) as [p|] eqn:Hh.
  - destruct (wf_alloc s Hwf host p Hh) as [r Hp]. eexists.
    by apply (GetIPsStr_known resolver s host p r); [apply Hwf|..].
  - eexists. by apply GetIPsStr_unknown; [apply Hwf|].
Qed.

(** C4.  For a host that is not in the map, whether it was never added or
    was removed, [GetNextIPWithIdx] returns the empty string and -1, and
    [GetIPs] and [GetIPsStr] return two nil slices; [GetNextIPWithIdx]
    returns the same for a host whose IPv4 list is empty; and every query
    returns: none panics or blocks. *)
Theorem unknown_host_sentinels s host :
  reachable s →
  (hosts s !! host = None →
     run (GetNextIPWithIdx host) s = Done ("", -1) s ∧
     run (GetNextIP host) s = Done "" s ∧
     run (GetIPs host) s = Done ([], []) s ∧
     run (GetIPsStr host) s = Done ([], []) s) ∧
  (let s' := set_hosts (delete host (hosts s)) s in
   run (DelHost host) s = Done tt s' ∧
   run (GetNextIPWithIdx host) s' = Done ("", -1) s' ∧
   run (GetIPs host) s' = Done ([], []) s' ∧
   run (GetIPsStr host) s' = Done ([], []) s') ∧
  (∀ r, record s host = Some r → ip4 r = [] →
     run (GetNextIPWithIdx host) s = Done ("", -1) s) ∧
  (is_Some (value (run (GetNextIPWithIdx host) s)) ∧
   is_Some (value (run (GetNextIP host) s)) ∧
   is_Some (value (run (GetIPs host) s)) ∧
   is_Some (value (run (GetIPsStr host) s)) ∧
   is_Some (value (run Dump s)) ∧
   ∀ prefix, is_Some (value (run (DumpPrefix prefix) s))).
Proof.
  intros Hreach.
  pose proof (reachable_wf resolver ParseIP s Hreach) as Hwf.
  pose proof (wf_mu s Hwf) as Hmu.
  split_and!.
  - intros Hh. split_and!.
    + by apply GetNextIPWithIdx_unknown.
    + apply (GetNextIP_run s host "" (-1)).
      by apply GetNextIPWithIdx_unknown.
    + by apply GetIPs_unknown.
    + by apply GetIPsStr_unknown.
  - intros s'. assert (hosts s' !! host = None) as Hh.
    { subst s'. simpl. apply lookup_delete_eq. }
    split_and!.
    + by apply DelHost_run.
    + by apply GetNextIPWithIdx_unknown.
    + by apply GetIPs_unknown.
    + by apply GetIPsStr_unknown.
  - intros r Hrec He. apply record_Some in Hrec as (p & Hh & Hp).
    by apply (GetNextIPWithIdx_empty resolver s host p r).
  - destruct (GetNextIPWithIdx_wf resolver s host Hwf)
      as (res & s' & -> & _). by eexists.
  - destruct (GetNextIPWithIdx_wf resolver s host Hwf)
      as ([ip i] & s' & Hrun & _).
    rewrite (GetNextIP_run s host ip i s' Hrun). by eexists.
  - destruct (GetIPs_run s host Hwf) as [res ->]. by eexists.
  - destruct (GetIPsStr_run s host Hwf) as [res ->]. by eexists.
  - destruct (DumpPrefix_run resolver "" s Hmu (wf_alloc s Hwf)) as [w Hw].
    unfold Dump. rewrite Hw. by eexists.
  - intros prefix.
    destruct (DumpPrefix_run resolver prefix s Hmu (wf_alloc s Hwf))
      as [w ->].
    by eexists.
Qed.

(** C5.  A refresh turn whose lookup fails changes neither the map nor
    any record: addresses and cursors are those of the last successful
    update, and [GetIPs] and [GetIPsStr] still return them. *)
Theorem failed_lookup_keeps_records s host err :
  reachable s → resolver (lookups s) host = LookupErr err →
  ∃ s', run (refreshCycle ParseIP host) s = Done true s' ∧
        hosts s' = hosts s ∧ heap s' = heap s ∧
        (∀ h, record s' h = record s h) ∧
        (∀ h r, record s h = Some r →
           run (GetIPs h) s' = Done (ipv4 r, ipv6 r) s' ∧
           run (GetIPsStr h) s' = Done (ip4 r, ip6 r) s').
Proof.
  intros Hreach Hres.
  pose proof (reachable_wf resolver ParseIP s Hreach) as Hwf.
  eexists. split; [by apply refreshCycle_failed|].
  split_and!; try done.
  intros h r Hrec. apply record_Some in Hrec as (p & Hh & Hp).
  split.
  - by apply (GetIPs_known resolver _ h p r); [apply Hwf|..].
  - by apply (GetIPsStr_known resolver _ h p r); [apply Hwf|..].
Qed.

(** C7.  [AddHost] of a host that is in the map changes nothing: the
    record, its addresses and cursor stay, and no goroutine is started.
    [AddHost] of a host that is not in the map allocates an empty record,
    stores it under the host and starts one goroutine.  Two calls in a
    row do what one does. *)
Theorem AddHost_idempotent s host :
  reachable s →
  (∀ p, hosts s !! host = Some p → run (AddHost host) s = Done tt s) ∧
  (hosts s !! host = None →
     ∃ p s', run (AddHost host) s = Done tt s' ∧
             heap s !! p = None ∧
             hosts s' = <[host:=p]> (hosts s) ∧
             heap s' = <[p:=ips_zero]> (heap s) ∧
             record s' host = Some ips_zero ∧
             goroutines s' = goroutines s ++ [host] ∧
             mu s' = mu s ∧ tag s' = tag s ∧ log s' = log s ∧
             written s' = written s ∧ lookups s' = lookups s ∧
             slept s' = slept s) ∧
  run (AddHost host ;; AddHost host)%prog s = run (AddHost host) s.
Proof.
  intros Hreach.
  pose proof (reachable_wf resolver ParseIP s Hreach) as Hwf.
  pose proof (wf_mu s Hwf) as Hmu.
  assert (hosts s !! host = None →
          let p := fresh (dom (heap s)) in
          heap s !! p = None) as Hfresh.
  { intros _ p. apply not_elem_of_dom, is_fresh. }
  split_and!.
  - intros p Hh. by apply (AddHost_present resolver s host p).
  - intros Hh. eexists _, _. split; [by apply AddHost_absent|].
    split_and!; try done.
    + by apply Hfresh.
    + unfold record. simpl. rewrite lookup_insert_eq. simpl.
      by rewrite lookup_insert_eq.
  - rewrite run_bind. destruct (hosts s !! host) as [p|] eqn:Hh.
    + rewrite (AddHost_present resolver s host p Hmu Hh).
      by apply (AddHost_present resolver s host p).
    + rewrite (AddHost_absent resolver s host Hmu Hh). cbv zeta.
      eapply AddHost_present; [done|]. simpl. apply lookup_insert_eq.
Qed.

Lemma refreshLoop_returns s host sip s1 fuel :
  resolver (lookups s) host = LookupOk sip →
  run (updateHostIPs ParseIP host sip) (set_lookups (S (lookups s)) s) =
    Done false s1 →
  run (refreshLoop ParseIP (S fuel) host) s =
    Done Returned
      (set_log (log s1 ++ [(Error,
         [OStr (tag s1); OStr "stop resolver for:"; OStr host])]) s1).
Proof.
  intros Hres Hupd. cbn [refreshLoop]. rewrite run_bind.
  rewrite (refreshCycle_resolved resolver ParseIP s host sip Hres), Hupd.
  reflexivity.
Qed.


End Queries.

Section Frame.

Variable resolver : nat → string → lookup_result.
Variable ParseIP : string → option IP.

Local Abbreviation run := (run resolver).
Local Abbreviation reachable := (reachable resolver ParseIP).

Lemma only_cursor_refl host s : only_cursor host s s.
Proof.
  unfold only_cursor. split_and!; try done.
  destruct (record s host) as [r|]; [|done]. by exists r.
Qed.

Lemma only_cursor_store s host p r i :
  wf s → hosts s !! host = Some p → heap s !! p = Some r →
  only_cursor host s (set_heap (<[p:=set_field Fidx i r]> (heap s)) s).
Proof.
  intros Hwf Hh Hp. unfold only_cursor. simpl. split_and!; try done.
  - apply dom_insert_lookup_L. eauto.
  - intros h Hne. by apply (record_store_other s host h p).
  - assert (record s host = Some r) as -> by (apply record_Some; eauto).
    exists (set_field Fidx i r). split; [|done].
    by apply record_store_same.
Qed.

Lemma GetNextIPWithIdx_frame s host :
  wf s →
  ∃ res s', run (GetNextIPWithIdx host) s = Done res s' ∧
            only_cursor host s s'.
Proof.
  intros Hwf. destruct (hosts s !! host) as [p|] eqn:Hh.
  - destruct (wf_alloc s Hwf host p Hh) as [r Hp].
    destruct (decide (ip4 r = [])) as [He|Hne].
    + exists ("", -1), s. split; [|apply only_cursor_refl].
      by apply (GetNextIPWithIdx_empty resolver s host p r); try apply Hwf.
    + destruct (GetNextIPWithIdx_step resolver s host p r)
        as (ip & _ & _ & Hrun & _); try done.
      eexists _, _. split; [exact Hrun|]. by apply only_cursor_store.
  - exists ("", -1), s. split; [|apply only_cursor_refl].
    by apply GetNextIPWithIdx_unknown; try apply Hwf.
Qed.

(** C10.  [GetNextIPWithIdx], and so [GetNextIP], changes at most the
    cursor of the host it is asked about: the four address lists of that
    host, the record of every other host, the map and the rest of the
    state are as before.  [GetIPs] and [GetIPsStr] leave the state as it
    is, and [Dump] and [DumpPrefix] only add to what they write. *)
Theorem queries_frame s host :
  reachable s →
  (∃ res s', run (GetNextIPWithIdx host) s = Done res s' ∧
             only_cursor host s s') ∧
  (∃ ip s', run (GetNextIP host) s = Done ip s' ∧ only_cursor host s s') ∧
  (∃ res, run (GetIPs host) s = Done res s) ∧
  (∃ res, run (GetIPsStr host) s = Done res s) ∧
  (∃ w, run Dump s = Done tt (set_written w s)) ∧
  (∀ prefix, ∃ w, run (DumpPrefix prefix) s = Done tt (set_written w s)).
Proof.
  intros Hreach.
  pose proof (reachable_wf resolver ParseIP s Hreach) as Hwf.
  pose proof (wf_mu s Hwf) as Hmu.
  split_and!.
  - by apply GetNextIPWithIdx_frame.
  - destruct (GetNextIPWithIdx_frame s host Hwf) as ([ip i] & s' & Hrun & H).
    exists ip, s'. split; [|done].
    by apply (GetNextIP_run resolver s host ip i).
  - by apply GetIPs_run.
  - by apply GetIPsStr_run.
  - apply (DumpPrefix_run resolver "" s Hmu (wf_alloc s Hwf)).
  - intros prefix.
    apply (DumpPrefix_run resolver prefix s Hmu (wf_alloc s Hwf)).
Qed.

End Frame.

(** C9.  [updateHostIPs] holds the read lock for the map lookup only and
    stores the four lists and the cursor after releasing it, where
    [GetNextIPWithIdx] stores the cursor with the write lock held.  So a
    reader that runs between two of the stores gets the IPv4 strings of the
    new answer with the IPv6 strings of the old one; a [DelHost] that runs
    after the lookup is not noticed, the update writes to the removed
    record and returns true; and a [GetNextIPWithIdx] that has read the old
    length indexes the new, shorter list out of range and panics. *)
Theorem update_stores_outside_lock :
  stores_locked (once first_answer)
    (updateHostIPs Sample.sampleParseIP "example" second_answer)
    (resolved first_answer) = false ∧
  stores_locked (once first_answer) (GetNextIPWithIdx "example")
    (resolved first_answer) = true ∧
  value (run (once first_answer) (GetIPsStr "example")
           (resolved first_answer)) = Some (["10.0.0.1"], ["::1"]) ∧
  (∃ ts s', run_schedule (once first_answer) torn_schedule torn_pool
              (resolved first_answer) = Done ts s' ∧
            ts !! 1%nat = Some (Ret (Some (["10.0.0.2"], ["::1"]))) ∧
            value (run (once first_answer) (GetIPsStr "example") s') =
              Some (["10.0.0.2"], ["::2"])) ∧
  (∃ ts s', run_schedule (once first_answer) detached_schedule detached_pool
              (resolved first_answer) = Done ts s' ∧
            ts !! 0%nat = Some (Ret (Some true)) ∧
            hosts s' !! "example" = None ∧
            ip4 <$> heap s' !! 1%positive = Some ["10.0.0.2"]) ∧
  record (advanced five 1) "example" =
    Some (Ips 1 five [] (omap Sample.sampleParseIP five) []) ∧
  run_schedule (once five) crash_schedule crash_pool (advanced five 1) =
    Panicked.
Proof.
  split_and!; try (vm_compute; reflexivity);
    eexists _, _; split_and!; vm_compute; reflexivity.
Qed.

(** ** The properties on the example data *)

Lemma update_sorts_strings_witness :
  reachable (always unsorted) Sample.sampleParseIP registered ∧
  record registered "example" = Some ips_zero ∧
  ∃ s' r',
    run (always unsorted)
      (updateHostIPs Sample.sampleParseIP "example" unsorted) registered =
      Done true s' ∧
    record s' "example" = Some r' ∧
    StronglySorted String.le (ip4 r') ∧
    ipv4 r' ≡ₚ omap Sample.sampleParseIP (ip4 r').
Proof.
  assert (record registered "example" = Some ips_zero) as Hrec
    by (vm_compute; reflexivity).
  split; [apply reachable_registered|]. split; [exact Hrec|].
  destruct (update_sorts_strings (always unsorted) Sample.sampleParseIP
              registered "example" ips_zero unsorted
              (reachable_registered _ _) Hrec)
    as (s' & r' & Hrun & Hrec' & Hs4 & _ & _ & _ & _ & _ & Hp4 & _).
  by exists s', r'.
Defined.

(** C3, as stated, fails: for the answer 10.0.0.2, not-an-ip, 10.0.0.1 the
    string list is sorted and the binary list is not, so index 0 holds
    10.0.0.1 in the one and the parse of 10.0.0.2 in the other. *)
Lemma update_leaves_binary_unsorted :
  ∃ s' r',
    run (always unsorted)
      (updateHostIPs Sample.sampleParseIP "example" unsorted) registered =
      Done true s' ∧
    record s' "example" = Some r' ∧
    ip4 r' = ["10.0.0.1"; "10.0.0.2"] ∧
    ipv4 r' = omap Sample.sampleParseIP ["10.0.0.2"; "10.0.0.1"] ∧
    ¬ binary_in_string_order Sample.sampleParseIP r'.
Proof.
  eexists _, _. split; [vm_compute; reflexivity|].
  split; [vm_compute; reflexivity|].
  split; [reflexivity|]. split; [reflexivity|].
  intros [H _]. specialize (H 0%nat "10.0.0.1" eq_refl).
  vm_compute in H. discriminate.
Qed.

Lemma unknown_host_sentinels_witness :
  reachable (always three) Sample.sampleParseIP registered ∧
  hosts registered !! "elsewhere" = None ∧
  run (always three) (GetNextIPWithIdx "elsewhere") registered =
    Done ("", -1) registered ∧
  run (always three) (GetIPs "elsewhere") registered =
    Done ([], []) registered ∧
  run (always three) (GetIPsStr "elsewhere") registered =
    Done ([], []) registered.
Proof.
  assert (hosts registered !! "elsewhere" = None) as Hh
    by (vm_compute; reflexivity).
  split; [apply reachable_registered|]. split; [exact Hh|].
  destruct (unknown_host_sentinels (always three) Sample.sampleParseIP
              registered "elsewhere" (reachable_registered _ _))
    as (H & _).
  destruct (H Hh) as (H1 & _ & H3 & H4). by split_and!.
Defined.

Lemma failed_lookup_keeps_records_witness :
  reachable (once three) Sample.sampleParseIP (resolved three) ∧
  once three (lookups (resolved three)) "example" = LookupErr "no such host" ∧
  ∃ s',
    run (once three) (refreshCycle Sample.sampleParseIP "example")
      (resolved three) = Done true s' ∧
    record s' "example" = record (resolved three) "example" ∧
    run (once three) (GetIPsStr "example") s' = Done (three, []) s'.
Proof.
  assert (once three (lookups (resolved three)) "example" =
            LookupErr "no such host") as Hres by (vm_compute; reflexivity).
  split; [exact reachable_resolved_once_three|]. split; [exact Hres|].
  destruct (failed_lookup_keeps_records (once three) Sample.sampleParseIP
              (resolved three) "example" _ reachable_resolved_once_three Hres)
    as (s' & Hrun & _ & _ & Hrec & Hq).
  exists s'. split; [exact Hrun|]. split; [apply Hrec|].
  apply (Hq "example" (Ips 0 three [] (omap Sample.sampleParseIP three) [])).
  vm_compute. reflexivity.
Defined.

Lemma update_partitions_witness :
  reachable (always mixed) Sample.sampleParseIP registered ∧
  record registered "example" = Some ips_zero ∧
  ∃ s' r',
    run (always mixed) (updateHostIPs Sample.sampleParseIP "example" mixed)
      registered = Done true s' ∧
    record s' "example" = Some r' ∧
    ip4 r' = ["10.0.0.1"; "10.0.0.2"] ∧ ip6 r' = ["::1"].
Proof.
  assert (record registered "example" = Some ips_zero) as Hrec
    by (vm_compute; reflexivity).
  split; [apply reachable_registered|]. split; [exact Hrec|].
  destruct (update_partitions (always mixed) Sample.sampleParseIP
              registered "example" ips_zero mixed
              (reachable_registered _ _) Hrec)
    as (s' & r' & Hrun & Hrec' & _ & _ & _ & _ & _ & _ & _ & _ & Hex).
  exists s', r'. split; [exact Hrun|]. split; [exact Hrec'|].
  apply Hex; [reflexivity|].
  repeat constructor; vm_compute; eexists; reflexivity.
Defined.

Lemma AddHost_idempotent_witness :
  reachable (once three) Sample.sampleParseIP (resolved three) ∧
  hosts (resolved three) !! "example" = Some 1%positive ∧
  run (once three) (AddHost "example") (resolved three) =
    Done tt (resolved three).
Proof.
  assert (hosts (resolved three) !! "example" = Some 1%positive) as Hh
    by (vm_compute; reflexivity).
  split; [exact reachable_resolved_once_three|]. split; [exact Hh|].
  destruct (AddHost_idempotent (once three) Sample.sampleParseIP
              (resolved three) "example" reachable_resolved_once_three)
    as (H & _).
  exact (H _ Hh).
Defined.



Lemma queries_frame_witness :
  reachable (once three) Sample.sampleParseIP (resolved three) ∧
  ∃ res s',
    run (once three) (GetNextIPWithIdx "example") (resolved three) =
      Done res s' ∧
    only_cursor "example" (resolved three) s'.
Proof.
  split; [exact reachable_resolved_once_three|].
  destruct (queries_frame (once three) Sample.sampleParseIP (resolved three)
              "example" reachable_resolved_once_three) as (H & _).
  exact H.
Defined.

(** ** The reference parser on some literals *)

Example sample_v4 :
  Sample.sampleParseIP "10.0.0.1" =
    Some (Sample.v4InV6Prefix ++ ["010"; "000"; "000"; "001"]%byte).
Proof. reflexivity. Qed.

Example sample_v6 :
  Sample.sampleParseIP "::1" = Some (replicate 15 "000"%byte ++ ["001"%byte]).
Proof. reflexivity. Qed.

Example sample_v6_groups :
  Sample.sampleParseIP "2001:db8::ff00:42:8329" =
    Some ["032"; "001"; "013"; "184"; "000"; "000"; "000"; "000";
          "000"; "000"; "255"; "000"; "000"; "066"; "131"; "041"]%byte.
Proof. reflexivity. Qed.

Example sample_rejects :
  Sample.sampleParseIP "not-an-ip" = None ∧
  Sample.sampleParseIP "10.0.0.256" = None ∧
  Sample.sampleParseIP "10.0.0.01" = None ∧
  Sample.sampleParseIP "1:::2" = None ∧
  Sample.sampleParseIP "1:2:3:4:5:6:7" = None.
Proof. repeat split; reflexivity. Qed.

(** The format of a line of [DumpPrefix]. *)
Example dump_example :
  written (after (run (once mixed) (DumpPrefix "p.") (resolved mixed))) =
    ["p.resolver.v4.example.0: 10.0.0.1" +:+ newline;
     "p.resolver.v4.example.1: 10.0.0.2" +:+ newline;
     "p.resolver.v6.example.0: ::1" +:+ newline].
Proof. vm_compute. reflexivity. Qed.

(** ** How the records change *)

Section Records.

Variable resolver : nat → string → lookup_result.
Variable ParseIP : string → option IP.

Local Abbreviation run := (run resolver).
Local Abbreviation reachable := (reachable resolver ParseIP).

Local Abbreviation heap_step := (heap_step ParseIP).

Lemma heap_step_refl h : heap_step h h.
Proof. intros p r Hp. right. exists r. split; [done|]. by left. Qed.

Lemma heap_step_insert h p r r' :
  h !! p = Some r →
  lists r' = lists r ∨ (∃ sip, r' = updated ParseIP r sip) →
  heap_step h (<[p:=r']> h).
Proof.
  intros Hp Hr q rq. destruct (decide (q = p)) as [->|Hne].
  - rewrite lookup_insert_eq. intros [= <-]. right. by exists r.
  - rewrite lookup_insert_ne by done. apply heap_step_refl.
Qed.

Lemma heap_step_alloc h p : heap_step h (<[p:=ips_zero]> h).
Proof.
  intros q rq. destruct (decide (q = p)) as [->|Hne].
  - rewrite lookup_insert_eq. intros [= <-]. by left.
  - rewrite lookup_insert_ne by done. apply heap_step_refl.
Qed.

Lemma exec_heap_step s c :
  wf s → call_ok resolver s c →
  ∃ s', run (exec ParseIP c) s = Done tt s' ∧ heap_step (heap s) (heap s').
Proof.
  intros Hwf Hok. pose proof (wf_mu s Hwf) as Hmu.
  destruct c as [h|h| |h|h|h|h| |prefix|h]; unfold exec.
  - destruct (hosts s !! h) as [p|] eqn:Hh.
    + exists s. split; [|apply heap_step_refl].
      by apply (AddHost_present resolver s h p).
    + eexists. split; [by apply AddHost_absent|]. apply heap_step_alloc.
  - eexists. split; [by apply DelHost_run|]. apply heap_step_refl.
  - eexists. split; [by apply Stop_run|]. apply heap_step_refl.
  - destruct (hosts s !! h) as [p|] eqn:Hh.
    + destruct (wf_alloc s Hwf h p Hh) as [r Hp].
      destruct (decide (ip4 r = [])) as [He|Hne].
      * exists s. split; [|apply heap_step_refl]. unfold GetNextIP.
        rewrite !run_bind.
        by rewrite (GetNextIPWithIdx_empty resolver s h p r).
      * destruct (GetNextIPWithIdx_step resolver s h p r)
          as (ip & _ & _ & Hrun & _); try done.
        eexists. split.
        { unfold GetNextIP. rewrite !run_bind, Hrun. reflexivity. }
        apply (heap_step_insert _ p r); [done|]. by left.
    + exists s. split; [|apply heap_step_refl]. unfold GetNextIP.
      rewrite !run_bind. by rewrite GetNextIPWithIdx_unknown.
  - destruct (hosts s !! h) as [p|] eqn:Hh.
    + destruct (wf_alloc s Hwf h p Hh) as [r Hp].
      destruct (decide (ip4 r = [])) as [He|Hne].
      * exists s. split; [|apply heap_step_refl]. rewrite run_bind.
        by rewrite (GetNextIPWithIdx_empty resolver s h p r).
      * destruct (GetNextIPWithIdx_step resolver s h p r)
          as (ip & _ & _ & Hrun & _); try done.
        eexists. split; [rewrite run_bind, Hrun; reflexivity|].
        apply (heap_step_insert _ p r); [done|]. by left.
    + exists s. split; [|apply heap_step_refl]. rewrite run_bind.
      by rewrite GetNextIPWithIdx_unknown.
  - exists s. split; [|apply heap_step_refl]. rewrite run_bind.
    destruct (GetIPs_run resolver s h Hwf) as [res ->]. reflexivity.
  - exists s. split; [|apply heap_step_refl]. rewrite run_bind.
    destruct (GetIPsStr_run resolver s h Hwf) as [res ->]. reflexivity.
  - destruct (DumpPrefix_run resolver "" s Hmu (wf_alloc s Hwf)) as [w Hw].
    eexists. split; [exact Hw|]. apply heap_step_refl.
  - destruct (DumpPrefix_run resolver prefix s Hmu (wf_alloc s Hwf))
      as [w Hw].
    eexists. split; [exact Hw|]. apply heap_step_refl.
  - rewrite run_bind.
    destruct (resolver (lookups s) h) as [addrs|err] eqn:Hres.
    + rewrite (refreshCycle_resolved resolver ParseIP s h addrs Hres).
      destruct (hosts s !! h) as [p|] eqn:Hh.
      * destruct (wf_alloc s Hwf h p Hh) as [r Hp].
        rewrite (updateHostIPs_known resolver ParseIP _ h addrs p r)
          by done.
        eexists. split; [reflexivity|]. simpl.
        apply (heap_step_insert _ p r); [done|]. right. by exists addrs.
      * rewrite updateHostIPs_unknown by done.
        eexists. split; [reflexivity|]. apply heap_step_refl.
    + rewrite (refreshCycle_failed resolver ParseIP s h err Hres).
      eexists. split; [reflexivity|]. apply heap_step_refl.
Qed.

(** A property of records that the empty record has, that depends on the
    lists only and that every update establishes holds of every record of
    every state the service reaches. *)
Lemma reachable_records (P : ips → Prop) s :
  P ips_zero →
  (∀ r r', lists r' = lists r → P r → P r') →
  (∀ r sip, P (updated ParseIP r sip)) →
  reachable s → ∀ p r, heap s !! p = Some r → P r.
Proof.
  intros H0 Hl Hu. induction 1 as [tag|s c s' Hreach IH Hok Hrun].
  { intros p r. simpl. by rewrite lookup_empty. }
  pose proof (reachable_wf resolver ParseIP s Hreach) as Hwf.
  destruct (exec_heap_step s c Hwf Hok) as (s'' & Hrun' & Hstep).
  rewrite Hrun in Hrun'. injection Hrun' as <-.
  intros p r' Hp. destruct (Hstep p r' Hp) as [->|(r & Hr & [Hsame|[sip ->]])].
  - done.
  - apply (Hl r r' Hsame). by apply (IH p).
  - apply Hu.
Qed.

End Records.

(** ** What every record holds *)

Section Tidy.

Variable resolver : nat → string → lookup_result.
Variable ParseIP : string → option IP.

Local Abbreviation run := (run resolver).
Local Abbreviation reachable := (reachable resolver ParseIP).
Local Abbreviation v4 := (is_v4 ParseIP).
Local Abbreviation v6 := (is_v6 ParseIP).

Lemma omap_parsed (l : list string) :
  Forall (λ ip, is_Some (ParseIP ip)) l →
  length (omap ParseIP l) = length l.
Proof.
  induction 1 as [|ip l [x Hx] _ IH]; simpl; [done|].
  rewrite Hx. simpl. f_equal. exact IH.
Qed.

Lemma tidy_zero : tidy ParseIP ips_zero.
Proof. unfold tidy. simpl. split_and!; try done; constructor. Qed.

Lemma tidy_lists r r' :
  lists r' = lists r → tidy ParseIP r → tidy ParseIP r'.
Proof. unfold lists, tidy. intros [= -> -> -> ->]. done. Qed.

Lemma tidy_updated r sip : tidy ParseIP (updated ParseIP r sip).
Proof.
  destruct (updated_fields ParseIP r sip) as (H4 & H6 & Hb4 & Hb6).
  unfold tidy. rewrite H4, H6, Hb4, Hb6.
  assert (Forall (λ ip, is_Some (ParseIP ip) ∧ Contains ip ":" = false)
            (filter v4 sip)) as F4.
  { apply Forall_forall. intros ip Hin.
    apply list_elem_of_filter in Hin as [Hin _]. by apply is_v4_spec. }
  assert (Forall (λ ip, is_Some (ParseIP ip) ∧ Contains ip ":" = true)
            (filter v6 sip)) as F6.
  { apply Forall_forall. intros ip Hin.
    apply list_elem_of_filter in Hin as [Hin _]. by apply is_v6_spec. }
  split_and!.
  - apply sort_Strings_Sorted.
  - apply sort_Strings_Sorted.
  - by rewrite sort_Strings_Permutation.
  - by rewrite sort_Strings_Permutation.
  - by rewrite sort_Strings_Permutation.
  - by rewrite sort_Strings_Permutation.
  - rewrite sort_Strings_length. apply omap_parsed.
    eapply Forall_impl; [exact F4|]. by intros ip [? _].
  - rewrite sort_Strings_length. apply omap_parsed.
    eapply Forall_impl; [exact F6|]. by intros ip [? _].
Qed.

Lemma reachable_tidy s p r :
  reachable s → heap s !! p = Some r → tidy ParseIP r.
Proof.
  intros Hreach. revert p r.
  apply (reachable_records resolver ParseIP (tidy ParseIP) s);
    [apply tidy_zero | apply tidy_lists | apply tidy_updated | done].
Qed.

(** X3.  In every state the service reaches, every record, in the map or
    removed from it, has sorted string lists, IPv4 strings that parse
    and contain no colon, IPv6 strings that parse and contain one, and
    binary lists that are, up to order, the parses of the strings, with
    the same lengths. *)
Theorem records_tidy s p r :
  reachable s → heap s !! p = Some r → tidy ParseIP r.
Proof.
  intros Hreach. revert p r.
  apply (reachable_records resolver ParseIP (tidy ParseIP) s).
  - apply tidy_zero.
  - apply tidy_lists.
  - apply tidy_updated.
  - exact Hreach.
Qed.

(** X4.  For a host in the map of a state the service reaches,
    [GetIPsStr] and [GetIPs] return sorted strings and, family by
    family, as many binary addresses as strings: the parses of these
    strings, in some order. *)
Theorem GetIPs_matches_GetIPsStr s host p :
  reachable s → hosts s !! host = Some p →
  ∃ s4 s6 b4 b6,
    run (GetIPsStr host) s = Done (s4, s6) s ∧
    run (GetIPs host) s = Done (b4, b6) s ∧
    StronglySorted String.le s4 ∧ StronglySorted String.le s6 ∧
    b4 ≡ₚ omap ParseIP s4 ∧ b6 ≡ₚ omap ParseIP s6 ∧
    length b4 = length s4 ∧ length b6 = length s6.
Proof.
  intros Hreach Hh.
  pose proof (reachable_wf resolver ParseIP s Hreach) as Hwf.
  destruct (wf_alloc s Hwf host p Hh) as [r Hp].
  destruct (reachable_tidy s p r Hreach Hp)
    as (S4 & S6 & _ & _ & P4 & P6 & L4 & L6).
  exists (ip4 r), (ip6 r), (ipv4 r), (ipv6 r). split_and!; try done.
  - by apply (GetIPsStr_known resolver s host p r); [apply Hwf|..].
  - by apply (GetIPs_known resolver s host p r); [apply Hwf|..].
Qed.

End Tidy.

(** ** What [DumpPrefix] writes *)

Section Dump.

Variable resolver : nat → string → lookup_result.
Variable ParseIP : string → option IP.

Local Abbreviation run := (run resolver).
Local Abbreviation reachable := (reachable resolver ParseIP).

Lemma for_each_idx_lines (f : nat → string → string) i l s :
  run (for_each_idx i l (λ i ip, trigger (Fprintf (f i ip)))) s =
    Done tt (set_written (written s ++ imap (λ j, f (i + j)%nat) l) s).
Proof.
  revert i s. induction l as [|x l IH]; intros i s.
  { simpl. rewrite app_nil_r. by destruct s. }
  cbn. rewrite IH. f_equal. unfold set_written. simpl. f_equal.
  rewrite <- app_assoc. simpl. rewrite Nat.add_0_r. do 2 f_equal.
  apply imap_ext. intros j y _. simpl. f_equal. lia.
Qed.

Lemma host_lines_written prefix w s h :
  host_lines prefix (set_written w s) h = host_lines prefix s h.
Proof. reflexivity. Qed.

Lemma dump_hosts_lines prefix hs s :
  (∀ h, h ∈ hs → ∃ p, hosts s !! h = Some p ∧ is_Some (heap s !! p)) →
  run (for_each hs (λ hostName,
         host ← trigger (MapGet hostName);
         p ← deref host;
         l ← trigger (Load p Fip4);
         for_each_idx 0 (sort_Strings l) (λ i ip,
           trigger (Fprintf (dump_line prefix "v4" hostName i ip))) ;;
         p ← deref host;
         l ← trigger (Load p Fip6);
         for_each_idx 0 (sort_Strings l) (λ i ip,
           trigger (Fprintf (dump_line prefix "v6" hostName i ip))))%prog) s =
    Done tt (set_written (written s ++ (hs ≫= host_lines prefix s)) s).
Proof.
  revert s. induction hs as [|h hs IH]; intros s Hall.
  { simpl. rewrite app_nil_r. by destruct s. }
  destruct (Hall h) as (p & Hp & r & Hr); [apply list_elem_of_here|].
  cbn. rewrite Hp. cbn. rewrite Hr. rewrite !run_bind, for_each_idx_lines.
  cbn. rewrite Hr. rewrite for_each_idx_lines. rewrite IH.
  - f_equal. unfold set_written. simpl. f_equal.
    rewrite <- !app_assoc. f_equal.
    unfold host_lines at 2, record. simpl. rewrite Hp. simpl. rewrite Hr.
    rewrite <- app_assoc. reflexivity.
  - intros h' Hin. simpl. apply Hall. by apply list_elem_of_further.
Qed.

Lemma DumpPrefix_lines s prefix :
  wf s →
  run (DumpPrefix prefix) s =
    Done tt (set_written (written s ++ dump_lines prefix s) s).
Proof.
  intros Hwf. pose proof (wf_mu s Hwf) as Hmu.
  unfold DumpPrefix, dump_lines.
  destruct s as [m hs t lg hp g w n sl]; simpl in *; subst m.
  match goal with |- context [for_each ?l ?b] =>
    pose proof (dump_hosts_lines prefix l
      (set_mu (RLocked 0) (Svc Unlocked hs t lg hp g w n sl))) as Hw
  end.
  cbn. rewrite run_bind. cbn in Hw |- *. rewrite Hw.
  - reflexivity.
  - intros h Hin.
    assert (is_Some (hs !! h)) as [p Hp].
    { apply map_keys_lookup. unfold sort_Strings in Hin.
      by rewrite merge_sort_Permutation in Hin. }
    exists p. split; [done|]. by apply (wf_alloc _ Hwf h p).
Qed.

(** X5.  [DumpPrefix] writes, after what was written before, the lines
    of the hosts of the map in ascending order of the host names; for
    each host the lines of its IPv4 strings and then of its IPv6
    strings, each family in ascending order and numbered from 0, in the
    format prefix resolver.v4.host.index: address. It changes nothing
    else and releases the lock; [Dump] is [DumpPrefix] with the empty
    prefix. *)
Theorem DumpPrefix_writes s prefix :
  reachable s →
  run (DumpPrefix prefix) s =
    Done tt (set_written (written s ++ dump_lines prefix s) s) ∧
  run Dump s = Done tt (set_written (written s ++ dump_lines "" s) s).
Proof.
  intros Hreach.
  pose proof (reachable_wf resolver ParseIP s Hreach) as Hwf.
  split; by apply DumpPrefix_lines.
Qed.

Lemma sorted_fixed l : StronglySorted String.le l → sort_Strings l = l.
Proof. intros Hs. symmetry. by apply sort_Strings_unique. Qed.

(** X6.  In a state the service reaches, a line is among those
    [DumpPrefix] writes exactly when it is the line of a host of the
    map, a family and an index at which [GetIPsStr] has an address of
    that family: the index written is the index in the stored list. *)
Theorem dump_line_iff s prefix line :
  reachable s →
  line ∈ dump_lines prefix s ↔
  ∃ host r i ip,
    record s host = Some r ∧
    (ip4 r !! i = Some ip ∧ line = dump_line prefix "v4" host i ip ∨
     ip6 r !! i = Some ip ∧ line = dump_line prefix "v6" host i ip).
Proof.
  intros Hreach.
  pose proof (reachable_wf resolver ParseIP s Hreach) as Hwf.
  assert (∀ host r, record s host = Some r →
            sort_Strings (ip4 r) = ip4 r ∧ sort_Strings (ip6 r) = ip6 r)
    as Hfix.
  { intros host r Hrec. apply record_Some in Hrec as (p & _ & Hp).
    destruct (reachable_tidy resolver ParseIP s p r Hreach Hp)
      as (S4 & S6 & _).
    split; by apply sorted_fixed. }
  unfold dump_lines. rewrite list_elem_of_bind. split.
  - intros (host & Hline & Hhost). unfold host_lines in Hline.
    destruct (record s host) as [r|] eqn:Hrec;
      [|by apply elem_of_nil in Hline].
    destruct (Hfix host r Hrec) as [E4 E6]. rewrite E4, E6 in Hline.
    apply elem_of_app in Hline as [Hline|Hline];
      apply elem_of_lookup_imap in Hline as (i & ip & -> & Hip);
      exists host, r, i, ip; eauto.
  - intros (host & r & i & ip & Hrec & Hline). exists host. split.
    + unfold host_lines. rewrite Hrec.
      destruct (Hfix host r Hrec) as [E4 E6]. rewrite E4, E6.
      apply elem_of_app.
      destruct Hline as [[Hip ->]|[Hip ->]]; [left|right];
        by apply elem_of_lookup_imap_2.
    + rewrite sort_Strings_Permutation. apply map_keys_lookup.
      apply record_Some in Hrec as (p & Hh & _). eauto.
Qed.

End Dump.

(** ** Hosts and goroutines *)

Section Goroutines.

Variable resolver : nat → string → lookup_result.
Variable ParseIP : string → option IP.

Local Abbreviation run := (run resolver).
Local Abbreviation reachable := (reachable resolver ParseIP).

Lemma exec_goroutines s c :
  wf s → call_ok resolver s c →
  ∃ s', run (exec ParseIP c) s = Done tt s' ∧
        (∀ h, is_Some (hosts s' !! h) →
           is_Some (hosts s !! h) ∨ h ∈ goroutines s') ∧
        (∃ g, goroutines s' = goroutines s ++ g).
Proof.
  intros Hwf Hok. pose proof (wf_mu s Hwf) as Hmu.
  assert (∀ s', hosts s' = hosts s → goroutines s' = goroutines s →
            (∀ h, is_Some (hosts s' !! h) →
               is_Some (hosts s !! h) ∨ h ∈ goroutines s') ∧
            (∃ g, goroutines s' = goroutines s ++ g)) as Hsame.
  { intros s' -> ->. split; [by left|]. exists []. by rewrite app_nil_r. }
  destruct c as [h|h| |h|h|h|h| |prefix|h]; unfold exec.
  - destruct (hosts s !! h) as [p|] eqn:Hh.
    + exists s. split; [|by apply Hsame].
      by apply (AddHost_present resolver s h p).
    + eexists. split; [by apply AddHost_absent|]. simpl. split.
      * intros h'. destruct (decide (h' = h)) as [->|Hne].
        -- intros _. right. apply elem_of_app. right. apply list_elem_of_here.
        -- rewrite lookup_insert_ne by done. by left.
      * by exists [h].
  - eexists. split; [by apply DelHost_run|]. simpl. split.
    + intros h'. destruct (decide (h' = h)) as [->|Hne].
      * rewrite lookup_delete_eq. by intros [? ?].
      * rewrite lookup_delete_ne by done. by left.
    + exists []. by rewrite app_nil_r.
  - eexists. split; [by apply Stop_run|]. simpl. split.
    + intros h'. rewrite lookup_empty. by intros [? ?].
    + exists []. by rewrite app_nil_r.
  - destruct (GetNextIPWithIdx_frame resolver s h Hwf)
      as ([ip i] & s' & Hrun & Hc).
    exists s'. split.
    { unfold GetNextIP. rewrite !run_bind, Hrun. reflexivity. }
    apply Hsame; apply Hc.
  - destruct (GetNextIPWithIdx_frame resolver s h Hwf)
      as (res & s' & Hrun & Hc).
    exists s'. split; [rewrite run_bind, Hrun; reflexivity|].
    apply Hsame; apply Hc.
  - exists s. split; [|by apply Hsame]. rewrite run_bind.
    destruct (GetIPs_run resolver s h Hwf) as [res ->]. reflexivity.
  - exists s. split; [|by apply Hsame]. rewrite run_bind.
    destruct (GetIPsStr_run resolver s h Hwf) as [res ->]. reflexivity.
  - destruct (DumpPrefix_run resolver "" s Hmu (wf_alloc s Hwf)) as [w Hw].
    eexists. split; [exact Hw|]. by apply Hsame.
  - destruct (DumpPrefix_run resolver prefix s Hmu (wf_alloc s Hwf))
      as [w Hw].
    eexists. split; [exact Hw|]. by apply Hsame.
  - rewrite run_bind.
    destruct (resolver (lookups s) h) as [addrs|err] eqn:Hres.
    + rewrite (refreshCycle_resolved resolver ParseIP s h addrs Hres).
      destruct (hosts s !! h) as [p|] eqn:Hh.
      * destruct (wf_alloc s Hwf h p Hh) as [r Hp].
        rewrite (updateHostIPs_known resolver ParseIP _ h addrs p r)
          by done.
        eexists. split; [reflexivity|]. by apply Hsame.
      * rewrite updateHostIPs_unknown by done.
        eexists. split; [reflexivity|]. by apply Hsame.
    + rewrite (refreshCycle_failed resolver ParseIP s h err Hres).
      eexists. split; [reflexivity|]. by apply Hsame.
Qed.

Lemma goroutine_started s host :
  reachable s → is_Some (hosts s !! host) → host ∈ goroutines s.
Proof.
  intros Hreach. revert host.
  induction Hreach as [tag|s c s' Hreach IH Hok Hrun]; intros host.
  { simpl. rewrite lookup_empty. by intros [? ?]. }
  pose proof (reachable_wf resolver ParseIP s Hreach) as Hwf.
  destruct (exec_goroutines s c Hwf Hok) as (s'' & Hrun' & Hh & [g Hg]).
  rewrite Hrun in Hrun'. injection Hrun' as <-.
  intros Hin. destruct (Hh host Hin) as [Hold|Hnew]; [|done].
  rewrite Hg. apply elem_of_app. left. by apply IH.
Qed.

(** X10.  In every state the service reaches, a goroutine has been
    started for every host of the map: a host never sits in the map
    without a loop that refreshes it. *)
Theorem hosts_have_goroutines s host :
  reachable s → is_Some (hosts s !! host) → host ∈ goroutines s.
Proof.
  intros Hreach. revert host.
  induction Hreach as [tag|s c s' Hreach IH Hok Hrun]; intros host.
  { simpl. rewrite lookup_empty. by intros [? ?]. }
  pose proof (reachable_wf resolver ParseIP s Hreach) as Hwf.
  destruct (exec_goroutines s c Hwf Hok) as (s'' & Hrun' & Hh & [g Hg]).
  rewrite Hrun in Hrun'. injection Hrun' as <-.
  intros [Hold|Hnew]%Hh; [|done].
  rewrite Hg. apply elem_of_app. left. by apply IH.
Qed.

End Goroutines.

(** ** Removing hosts *)

Section Removal.

Variable resolver : nat → string → lookup_result.
Variable ParseIP : string → option IP.

Local Abbreviation run := (run resolver).
Local Abbreviation reachable := (reachable resolver ParseIP).

(** X7.  [Stop] empties the map and changes nothing else. Afterwards
    every query of every host returns what it returns for an unknown
    host, [DumpPrefix] writes nothing, and the loop of every goroutine
    returns at its next lookup that succeeds. *)
Theorem Stop_clears s :
  reachable s →
  let s' := set_hosts ∅ s in
  run Stop s = Done tt s' ∧
  (∀ host,
     run (GetNextIPWithIdx host) s' = Done ("", -1) s' ∧
     run (GetIPs host) s' = Done ([], []) s' ∧
     run (GetIPsStr host) s' = Done ([], []) s') ∧
  (∀ prefix, run (DumpPrefix prefix) s' = Done tt s') ∧
  (∀ host sip fuel,
     resolver (lookups s) host = LookupOk sip →
     ∃ s'', run (refreshLoop ParseIP (S fuel) host) s' = Done Returned s'' ∧
            lookups s'' = S (lookups s) ∧ slept s'' = slept s ∧
            heap s'' = heap s ∧ hosts s'' = ∅).
Proof.
  intros Hreach s'.
  pose proof (reachable_wf resolver ParseIP s Hreach) as Hwf.
  pose proof (wf_mu s Hwf) as Hmu.
  assert (run Stop s = Done tt s') as Hrun by (by apply Stop_run).
  assert (reachable s') as Hreach'.
  { by apply (reach_call resolver ParseIP s CStop). }
  assert (∀ host, hosts s' !! host = None) as Hnone.
  { intros host. apply lookup_empty. }
  split_and!.
  - done.
  - intros host. split_and!.
    + by apply GetNextIPWithIdx_unknown.
    + by apply GetIPs_unknown.
    + by apply GetIPsStr_unknown.
  - intros prefix.
    rewrite (DumpPrefix_lines resolver s' prefix)
      by (by apply (reachable_wf resolver ParseIP)).
    f_equal. unfold dump_lines. simpl. rewrite map_to_list_empty. simpl.
    rewrite app_nil_r. subst s'. by destruct s.
  - intros host sip fuel Hres. eexists. split.
    + apply (refreshLoop_returns resolver ParseIP s' host sip); [done|].
      by apply updateHostIPs_unknown.
    + done.
Qed.

(** X8.  [DelHost] removes the host from the map and nothing else: the
    records of the other hosts and the record that was the host's stay
    as they are, and for a host that is not in the map the state does
    not change. *)
Theorem DelHost_removes_one s host :
  reachable s →
  let s' := set_hosts (delete host (hosts s)) s in
  run (DelHost host) s = Done tt s' ∧
  record s' host = None ∧
  (∀ h, h ≠ host → record s' h = record s h) ∧
  heap s' = heap s ∧
  (hosts s !! host = None → s' = s).
Proof.
  intros Hreach s'.
  pose proof (reachable_wf resolver ParseIP s Hreach) as Hwf.
  split_and!.
  - apply DelHost_run, Hwf.
  - unfold record. simpl. by rewrite lookup_delete_eq.
  - intros h Hne. unfold record. simpl. by rewrite lookup_delete_ne.
  - done.
  - intros Hh. subst s'. rewrite delete_id by done. by destruct s.
Qed.

(** X9.  [DelHost] and then [AddHost] of a host of the map gives the
    host a new, empty record, the old one staying where it was, and
    starts a goroutine beside those started before: at least two have
    then been started for the host, and the next turn of each of them
    whose lookup succeeds updates the new record and goes on. *)
Theorem readd_starts_another_loop s host p :
  reachable s → hosts s !! host = Some p →
  ∃ s' p',
    run (DelHost host ;; AddHost host)%prog s = Done tt s' ∧
    hosts s' = <[host:=p']> (hosts s) ∧ p' ≠ p ∧
    record s' host = Some ips_zero ∧
    heap s' !! p = heap s !! p ∧
    goroutines s' = goroutines s ++ [host] ∧
    (2 ≤ length (filter (λ h, h = host) (goroutines s')))%nat ∧
    (∀ sip, resolver (lookups s') host = LookupOk sip →
       ∃ s'', run (refreshCycle ParseIP host) s' = Done true s'' ∧
              record s'' host = Some (updated ParseIP ips_zero sip)).
Proof.
  intros Hreach Hh.
  pose proof (reachable_wf resolver ParseIP s Hreach) as Hwf.
  pose proof (wf_mu s Hwf) as Hmu.
  destruct (wf_alloc s Hwf host p Hh) as [r Hp].
  set (s1 := set_hosts (delete host (hosts s)) s).
  set (p' := fresh (dom (heap s))).
  assert (heap s !! p' = None) as Hfresh.
  { apply not_elem_of_dom, is_fresh. }
  assert (p' ≠ p) as Hne by congruence.
  assert (run (DelHost host ;; AddHost host)%prog s =
            Done tt (set_goroutines (goroutines s ++ [host])
                      (set_hosts (<[host:=p']> (hosts s1))
                        (set_heap (<[p':=ips_zero]> (heap s)) s1)))) as Hrun.
  { rewrite run_bind, (DelHost_run resolver s host Hmu). fold s1.
    rewrite (AddHost_absent resolver s1 host); [done..|].
    simpl. apply lookup_delete_eq. }
  eexists _, p'. split; [exact Hrun|].
  split_and!.
  - simpl. apply insert_delete_eq.
  - done.
  - unfold record. simpl. rewrite lookup_insert_eq. simpl.
    apply lookup_insert_eq.
  - simpl. by apply lookup_insert_ne.
  - done.
  - simpl.
    rewrite filter_app, length_app, filter_cons, decide_True by done.
    simpl. assert (host ∈ goroutines s) as Hin.
    { apply (goroutine_started resolver ParseIP s host Hreach). eauto. }
    assert (host ∈ filter (λ h, h = host) (goroutines s)) as Hin'.
    { by apply list_elem_of_filter. }
    destruct (filter (λ h, h = host) (goroutines s));
      [by apply elem_of_nil in Hin' | simpl; lia].
  - intros sip Hres.
    match goal with
    | |- ∃ s'', run (refreshCycle ParseIP host) ?S = _ ∧ _ =>
        rewrite (refreshCycle_resolved resolver ParseIP S host sip Hres)
    end.
    rewrite (updateHostIPs_known resolver ParseIP _ host sip p' ips_zero);
      [| done | simpl; apply lookup_insert_eq..].
    eexists. split; [reflexivity|].
    unfold record. simpl. rewrite lookup_insert_eq. simpl.
    apply lookup_insert_eq.
Qed.

End Removal.

(** ** More on updates *)

Section Updates.

Variable resolver : nat → string → lookup_result.
Variable ParseIP : string → option IP.

Local Abbreviation run := (run resolver).
Local Abbreviation reachable := (reachable resolver ParseIP).
Local Abbreviation v4 := (is_v4 ParseIP).
Local Abbreviation v6 := (is_v6 ParseIP).

(** X11.  An update of one host leaves the map, the records of all other
    hosts and the set of records as they are; it makes no lookup, starts
    no goroutine, writes and sleeps nothing, and logs one line when it
    succeeds and none otherwise. *)
Theorem update_touches_one_host s host sip :
  reachable s →
  ∃ b s', run (updateHostIPs ParseIP host sip) s = Done b s' ∧
          mu s' = mu s ∧ hosts s' = hosts s ∧
          dom (heap s') = dom (heap s) ∧
          (∀ h, h ≠ host → record s' h = record s h) ∧
          goroutines s' = goroutines s ∧ written s' = written s ∧
          lookups s' = lookups s ∧ slept s' = slept s ∧
          length (log s') = (length (log s) + if b then 1 else 0)%nat.
Proof.
  intros Hreach.
  pose proof (reachable_wf resolver ParseIP s Hreach) as Hwf.
  pose proof (wf_mu s Hwf) as Hmu.
  destruct (hosts s !! host) as [p|] eqn:Hh.
  - destruct (wf_alloc s Hwf host p Hh) as [r Hp].
    eexists true, _. split.
    { by apply (updateHostIPs_known resolver ParseIP s host sip p r). }
    simpl. split_and!; try done.
    + apply dom_insert_lookup_L. eauto.
    + intros h Hne. by apply (record_store_other s host h p).
    + by rewrite length_app.
  - exists false, s. split; [by apply updateHostIPs_unknown|].
    split_and!; try done; lia.
Qed.

(** X12.  An update keeps the cursor when the new IPv4 list is long
    enough for it: the rotation goes on from where it was. *)
Theorem update_keeps_cursor s host r sip :
  reachable s → record s host = Some r → fits sip →
  idx r < len (filter v4 sip) →
  ∃ s' r', run (updateHostIPs ParseIP host sip) s = Done true s' ∧
           record s' host = Some r' ∧ idx r' = idx r.
Proof.
  intros Hreach Hrec Hfit Hlt.
  pose proof (reachable_wf resolver ParseIP s Hreach) as Hwf.
  destruct (updateHostIPs_record resolver ParseIP s host sip r Hwf Hrec)
    as (s' & Hrun & Hrec' & _).
  exists s', (updated ParseIP r sip). split; [done|]. split; [done|].
  pose proof (updated_fits ParseIP r sip Hfit) as Hf.
  pose proof (updated_ip4 ParseIP r sip) as H4.
  unfold updated in *. simpl in *.
  rewrite int_sub_len by done. rewrite H4, len_sort_Strings.
  apply decide_False. lia.
Qed.

Lemma updated_again r sip :
  0 ≤ idx r → fits sip →
  updated ParseIP (updated ParseIP r sip) sip = updated ParseIP r sip.
Proof.
  intros Hi Hfit. pose proof (updated_cursor ParseIP r sip Hi Hfit) as Hc.
  pose proof (updated_fits ParseIP r sip Hfit) as Hf.
  unfold updated in *. simpl in *. f_equal.
  set (l4 := sort_Strings _) in *. rewrite (int_sub_len l4) in * by done.
  destruct Hc as [H0 H1]. simpl in *.
  set (c := if decide (idx r > len l4 - 1) then 0 else idx r) in *.
  clearbody c. case_decide as Hgt; [|done].
  destruct (decide (l4 = [])) as [He|Hne].
  - symmetry. by apply H0.
  - specialize (H1 Hne). lia.
Qed.

(** X13.  A second update with the same answer changes nothing but the
    log: every record, and with it the cursor, is as the first update
    left it. *)
Theorem update_same_answer_twice s host r sip :
  reachable s → record s host = Some r → fits sip →
  ∃ s1 s2, run (updateHostIPs ParseIP host sip) s = Done true s1 ∧
           run (updateHostIPs ParseIP host sip) s1 = Done true s2 ∧
           hosts s2 = hosts s1 ∧ heap s2 = heap s1 ∧
           record s2 host = Some (updated ParseIP r sip).
Proof.
  intros Hreach Hrec Hfit.
  pose proof (reachable_wf resolver ParseIP s Hreach) as Hwf.
  pose proof (wf_mu s Hwf) as Hmu.
  pose proof (cursor_nonneg r (wf_record_valid s host r Hwf Hrec)) as Hi.
  apply record_Some in Hrec as (p & Hh & Hp).
  eexists _, _. split.
  { by apply (updateHostIPs_known resolver ParseIP s host sip p r). }
  split.
  { apply (updateHostIPs_known resolver ParseIP _ host sip p
             (updated ParseIP r sip)); [done..|].
    simpl. apply lookup_insert_eq. }
  simpl. rewrite updated_again by done. rewrite insert_insert_eq.
  split_and!; try done.
  unfold record. simpl. rewrite Hh. simpl. apply lookup_insert_eq.
Qed.

Lemma filter_none (P : string → Prop) `{∀ x, Decision (P x)} l :
  Forall (λ x, ¬ P x) l → filter P l = [].
Proof.
  induction 1 as [|x l Hx _ IH]; [done|].
  rewrite filter_cons, decide_False by done. exact IH.
Qed.

(** X14.  A lookup that succeeds with no address that parses (the empty
    answer among them) empties the record: the addresses of the last
    update are gone, the cursor is 0, and [GetNextIPWithIdx] returns the
    empty string and -1 from then on. *)
Theorem update_without_address_clears s host r sip :
  reachable s → record s host = Some r →
  Forall (λ ip, ParseIP ip = None) sip →
  ∃ s', run (updateHostIPs ParseIP host sip) s = Done true s' ∧
        record s' host = Some ips_zero ∧
        run (GetNextIPWithIdx host) s' = Done ("", -1) s' ∧
        run (GetIPs host) s' = Done ([], []) s' ∧
        run (GetIPsStr host) s' = Done ([], []) s'.
Proof.
  intros Hreach Hrec Hall.
  pose proof (reachable_wf resolver ParseIP s Hreach) as Hwf.
  pose proof (wf_mu s Hwf) as Hmu.
  pose proof (cursor_nonneg r (wf_record_valid s host r Hwf Hrec)) as Hi.
  assert (updated ParseIP r sip = ips_zero) as Hz.
  { destruct (updated_fields ParseIP r sip) as (H4 & H6 & Hb4 & Hb6).
    assert (filter v4 sip = []) as E4.
    { apply filter_none. eapply Forall_impl; [exact Hall|].
      intros ip Hn Hv. apply is_v4_spec in Hv as [[x Hx] _]. congruence. }
    assert (filter v6 sip = []) as E6.
    { apply filter_none. eapply Forall_impl; [exact Hall|].
      intros ip Hn Hv. apply is_v6_spec in Hv as [[x Hx] _]. congruence. }
    rewrite E4 in H4, Hb4. rewrite E6 in H6, Hb6.
    unfold updated in *. simpl in *. unfold ips_zero.
    rewrite H4, H6, Hb4, Hb6. f_equal.
    apply decide_True. change (int_sub (len (sort_Strings [])) 1) with (-1).
    lia. }
  apply record_Some in Hrec as (p & Hh & Hp).
  eexists. split.
  { by apply (updateHostIPs_known resolver ParseIP s host sip p r). }
  rewrite Hz. split_and!.
  - unfold record. simpl. rewrite Hh. simpl. apply lookup_insert_eq.
  - apply (GetNextIPWithIdx_empty resolver _ host p ips_zero); try done.
    simpl. apply lookup_insert_eq.
  - apply (GetIPs_known resolver _ host p ips_zero); try done.
    simpl. apply lookup_insert_eq.
  - apply (GetIPsStr_known resolver _ host p ips_zero); try done.
    simpl. apply lookup_insert_eq.
Qed.

End Updates.

(** ** A full turn of the rotation *)

Lemma calls_from_S l i k :
  calls_from l i (S k) =
    (let c := (i + 1) `mod` len l in
     (default EmptyString (l !! Z.to_nat c), c))
      :: calls_from l ((i + 1) `mod` len l) k.
Proof.
  unfold calls_from. simpl seq. rewrite fmap_cons, <- fmap_S_seq.
  f_equal. rewrite <- list_fmap_compose. apply list_fmap_ext.
  intros _ j _. simpl.
  replace (((i + 1) `mod` len l + Z.of_nat j) `mod` len l)
    with ((i + Z.of_nat (S j)) `mod` len l); [done|].
  rewrite Zplus_mod_idemp_l. f_equal. lia.
Qed.

Lemma rotate_Permutation {A} n (l : list A) : rotate n l ≡ₚ l.
Proof.
  unfold rotate. rewrite Permutation_app_comm. by rewrite take_drop.
Qed.

Lemma indexed_fst l : (indexed l).*1 = l.
Proof.
  unfold indexed. rewrite fmap_imap. simpl.
  rewrite <- (list_fmap_id l) at 2. apply imap_const.
Qed.

(** The calls of a full turn return the list with its indices, rotated to
    start after the cursor. *)
Lemma calls_from_rotate l i :
  0 ≤ i → l ≠ [] →
  calls_from l i (length l) =
    rotate (Z.to_nat ((i + 1) `mod` len l)) (indexed l).
Proof.
  intros Hi Hne. assert (0 < len l) as Hlen.
  { destruct l; [done|]. unfold len. simpl. lia. }
  unfold len in *. apply list_eq. intros j.
  destruct (decide (j < length l)%nat) as [Hj|Hj].
  - unfold calls_from. rewrite list_lookup_fmap, lookup_seq_lt by done.
    rewrite lookup_rotate_r by (unfold indexed; by rewrite length_imap).
    unfold indexed. rewrite length_imap, list_lookup_imap.
    unfold rotate_nat_add. simpl.
    pose proof (Z.mod_pos_bound (i + 1) (Z.of_nat (length l)) Hlen) as Hb.
    unfold len.
    rewrite !(Z2Nat.id ((i + 1) `mod` Z.of_nat (length l))) by lia.
    rewrite Zplus_mod_idemp_l.
    replace (i + Z.of_nat (S j)) with (i + 1 + Z.of_nat j) by lia.
    set (c := (i + 1 + Z.of_nat j) `mod` Z.of_nat (length l)).
    pose proof (Z.mod_pos_bound (i + 1 + Z.of_nat j)
                  (Z.of_nat (length l)) Hlen) as Hc. fold c in Hc.
    destruct (lookup_lt_is_Some_2 l (Z.to_nat c)) as [ip Hip]; [lia|].
    rewrite Hip. simpl. by rewrite Z2Nat.id by lia.
  - rewrite !lookup_ge_None_2; [done|..].
    + rewrite length_rotate. unfold indexed. rewrite length_imap. lia.
    + unfold calls_from. rewrite length_fmap, length_seq. lia.
Qed.

Section Turn.

Variable resolver : nat → string → lookup_result.
Variable ParseIP : string → option IP.

Local Abbreviation run := (run resolver).
Local Abbreviation reachable := (reachable resolver ParseIP).

Lemma set_cursor_same r : set_field Fidx (idx r) r = r.
Proof. by destruct r. Qed.

Lemma repeat_GetNextIPWithIdx k s host r :
  wf s → record s host = Some r → ip4 r ≠ [] →
  ∃ s', run (repeat_call k (GetNextIPWithIdx host)) s =
          Done (calls_from (ip4 r) (idx r) k) s' ∧
        record s' host =
          Some (set_field Fidx ((idx r + Z.of_nat k) `mod` len (ip4 r)) r) ∧
        wf s'.
Proof.
  revert s r. induction k as [|k IH]; intros s r Hwf Hrec Hne.
  - exists s. split; [done|]. split; [|done].
    destruct (wf_record_valid s host r Hwf Hrec) as [_ Hc].
    specialize (Hc Hne). rewrite Z.add_0_r, Z.mod_small by lia.
    by rewrite set_cursor_same.
  - destruct (GetNextIPWithIdx_record resolver s host r Hwf Hrec Hne)
      as (ip & s1 & Hrun & Hip & Hrec1 & Hwf1).
    destruct (IH s1 _ Hwf1 Hrec1 Hne) as (s' & Hrun' & Hrec' & Hwf').
    simpl in Hrun', Hrec'.
    exists s'. split; [|split; [|done]].
    + cbn [repeat_call]. rewrite !run_bind, Hrun, !run_bind, Hrun'.
      rewrite calls_from_S. simpl. by rewrite Hip.
    + rewrite Hrec'. rewrite Zplus_mod_idemp_l.
      replace (idx r + 1 + Z.of_nat k) with (idx r + Z.of_nat (S k)) by lia.
      reflexivity.
Qed.

(** X1.  As many calls of [GetNextIPWithIdx] in a row as the host has
    IPv4 addresses return every address once, each with its index, in
    the order of the list and starting after the cursor, and leave the
    cursor where it was. *)
Theorem round_robin_full_turn s host r :
  reachable s → record s host = Some r → ip4 r ≠ [] →
  ∃ res s',
    run (repeat_call (length (ip4 r)) (GetNextIPWithIdx host)) s =
      Done res s' ∧
    res = rotate (Z.to_nat ((idx r + 1) `mod` len (ip4 r)))
            (indexed (ip4 r)) ∧
    res ≡ₚ indexed (ip4 r) ∧ res.*1 ≡ₚ ip4 r ∧
    record s' host = Some r.
Proof.
  intros Hreach Hrec Hne.
  pose proof (reachable_wf resolver ParseIP s Hreach) as Hwf.
  destruct (wf_record_valid s host r Hwf Hrec) as [_ Hc].
  specialize (Hc Hne).
  destruct (repeat_GetNextIPWithIdx (length (ip4 r)) s host r Hwf Hrec Hne)
    as (s' & Hrun & Hrec' & _).
  rewrite calls_from_rotate in Hrun by (done || lia).
  eexists _, s'. split; [exact Hrun|]. split_and!.
  - done.
  - apply rotate_Permutation.
  - rewrite rotate_Permutation. by rewrite indexed_fst.
  - rewrite Hrec'. f_equal.
    replace ((idx r + Z.of_nat (length (ip4 r))) `mod` len (ip4 r))
      with (idx r); [apply set_cursor_same|].
    unfold len in *. rewrite <- (Z.mul_1_l (Z.of_nat (length (ip4 r)))) at 1.
    rewrite Z_mod_plus_full, Z.mod_small by lia. done.
Qed.

End Turn.

(** ** The loop of a goroutine *)

Section Loop.

Variable resolver : nat → string → lookup_result.
Variable ParseIP : string → option IP.

Local Abbreviation run := (run resolver).
Local Abbreviation reachable := (reachable resolver ParseIP).

Lemma loop_retries fuel s host :
  (∀ n, (lookups s ≤ n < lookups s + fuel)%nat →
        ∃ err, resolver n host = LookupErr err) →
  ∃ s' lines,
    run (refreshLoop ParseIP fuel host) s = Done OutOfFuel s' ∧
    mu s' = mu s ∧ hosts s' = hosts s ∧ heap s' = heap s ∧
    lookups s' = (lookups s + fuel)%nat ∧
    slept s' = (slept s + 60 * fuel)%nat ∧
    log s' = log s ++ lines ∧ length lines = fuel ∧
    Forall (λ line, line.1 = Error) lines ∧
    goroutines s' = goroutines s ∧ written s' = written s.
Proof.
  revert s. induction fuel as [|fuel IH]; intros s Hfail.
  { exists s, []. split; [done|]. rewrite app_nil_r.
    split_and!; try done; lia. }
  destruct (Hfail (lookups s)) as [err Herr]; [lia|].
  pose proof (refreshCycle_failed resolver ParseIP s host err Herr) as Hrun.
  match type of Hrun with _ = Done true ?S =>
    destruct (IH S)
      as (s' & lines & Hrun' & Hm & Hh & Hp & Hl & Hs & Hg & Hn & He & Hgo & Hw)
  end.
  { intros n Hn. simpl in Hn. apply Hfail. lia. }
  eexists s', (_ :: lines). split.
  { cbn [refreshLoop]. rewrite run_bind, Hrun. exact Hrun'. }
  simpl in *. rewrite <- app_assoc in Hg.
  split_and!; try done; try (simpl; lia). by constructor.
Qed.

(** X15.  While its lookups fail the loop of a goroutine goes on, whether
    or not the host is in the map: a turn makes one lookup, logs one error
    line and sleeps 60 seconds, without delay growing or a limit of turns,
    and the mutex, the map and every record stay as they are.  So the
    goroutine of a removed host ends only once a lookup succeeds.  The
    goroutine itself first logs that it starts and then runs this loop. *)
Theorem loop_retries_while_lookups_fail fuel s host :
  (∀ n, (lookups s ≤ n < lookups s + fuel)%nat →
        ∃ err, resolver n host = LookupErr err) →
  (∃ s' lines,
     run (refreshLoop ParseIP fuel host) s = Done OutOfFuel s' ∧
     mu s' = mu s ∧ hosts s' = hosts s ∧ heap s' = heap s ∧
     lookups s' = (lookups s + fuel)%nat ∧
     slept s' = (slept s + 60 * fuel)%nat ∧
     log s' = log s ++ lines ∧ length lines = fuel ∧
     Forall (λ line, line.1 = Error) lines ∧
     goroutines s' = goroutines s ∧ written s' = written s) ∧
  (∃ s' lines,
     run (refresher ParseIP fuel host) s = Done OutOfFuel s' ∧
     hosts s' = hosts s ∧ heap s' = heap s ∧
     lookups s' = (lookups s + fuel)%nat ∧
     slept s' = (slept s + 60 * fuel)%nat ∧
     log s' =
       log s ++
       (Info, [OStr (tag s); OStr "start resolver for:"; OStr host])
         :: lines ∧
     length lines = fuel ∧ Forall (λ line, line.1 = Error) lines).
Proof.
  intros Hfail. split; [by apply loop_retries|].
  set (start := (Info, [OStr (tag s); OStr "start resolver for:"; OStr host])).
  destruct (loop_retries fuel (set_log (log s ++ [start]) s) host Hfail)
    as (s' & lines & Hrun & _ & Hh & Hp & Hl & Hs & Hg & Hn & He & _).
  exists s', lines. split.
  { unfold refresher. cbn. exact Hrun. }
  simpl in *. rewrite <- app_assoc in Hg. by split_and!.
Qed.

Lemma loop_runs_wf fuel s host p :
  wf s → hosts s !! host = Some p →
  (∀ n addrs, resolver n host = LookupOk addrs → fits addrs) →
  ∃ s', run (refreshLoop ParseIP fuel host) s = Done OutOfFuel s' ∧
        hosts s' = hosts s ∧
        lookups s' = (lookups s + fuel)%nat ∧
        slept s' = (slept s + 60 * fuel)%nat ∧
        goroutines s' = goroutines s ∧ written s' = written s.
Proof.
  revert s. induction fuel as [|fuel IH]; intros s Hwf Hh Hfits.
  { exists s. split; [done|]. split_and!; try done; lia. }
  pose proof (wf_mu s Hwf) as Hmu.
  destruct (wf_alloc s Hwf host p Hh) as [r Hp].
  assert (call_ok resolver s (CRefresh host)) as Hok.
  { simpl. destruct (resolver (lookups s) host) eqn:Hres; [|done].
    by apply (Hfits (lookups s)). }
  destruct (refreshCycle_wf resolver ParseIP s host Hwf Hok)
    as (b & s1 & Hrun & Hwf1).
  assert (b = true ∧ hosts s1 = hosts s ∧ lookups s1 = S (lookups s) ∧
          slept s1 = (slept s + 60)%nat ∧ goroutines s1 = goroutines s ∧
          written s1 = written s) as (-> & Hh1 & Hl1 & Hs1 & Hg1 & Hw1).
  { destruct (resolver (lookups s) host) as [addrs|err] eqn:Hres.
    - rewrite (refreshCycle_resolved resolver ParseIP s host addrs Hres)
        in Hrun.
      rewrite (updateHostIPs_known resolver ParseIP _ host addrs p r)
        in Hrun by done.
      injection Hrun as <- <-. done.
    - rewrite (refreshCycle_failed resolver ParseIP s host err Hres)
        in Hrun.
      injection Hrun as <- <-. done. }
  destruct (IH s1) as (s' & Hrun' & Hh' & Hl' & Hs' & Hg' & Hw');
    [done | by rewrite Hh1 | done |].
  exists s'. split.
  { cbn [refreshLoop]. rewrite run_bind, Hrun. exact Hrun'. }
  split_and!; try congruence; lia.
Qed.

(** X16.  While the host is in the map the loop does not return,
    whatever the lookups answer: every turn makes one lookup and sleeps
    60 seconds. *)
Theorem loop_runs_while_registered fuel s host p :
  reachable s → hosts s !! host = Some p →
  (∀ n addrs, resolver n host = LookupOk addrs → fits addrs) →
  ∃ s', run (refreshLoop ParseIP fuel host) s = Done OutOfFuel s' ∧
        hosts s' = hosts s ∧
        lookups s' = (lookups s + fuel)%nat ∧
        slept s' = (slept s + 60 * fuel)%nat ∧
        goroutines s' = goroutines s ∧ written s' = written s.
Proof.
  intros Hreach. apply loop_runs_wf.
  by apply (reachable_wf resolver ParseIP).
Qed.

End Loop.

(** ** Which accesses hold the mutex *)

Section Locking.

Variable resolver : nat → string → lookup_result.
Variable ParseIP : string → option IP.

Local Abbreviation run := (run resolver).
Local Abbreviation reachable := (reachable resolver ParseIP).
Local Abbreviation accesses_locked := (accesses_locked resolver).

Lemma accesses_locked_bind {A B} (p : prog A) (f : A → prog B) s :
  accesses_locked (bind p f) s =
    accesses_locked p s &&
    match run p s with
    | Done a s' => accesses_locked (f a) s'
    | _ => true
    end.
Proof.
  revert s. induction p as [a|X e k IH]; intros s; simpl; [done|].
  destruct (handle resolver e s) as [x s'| |]; rewrite ?andb_true_r;
    [|done..].
  by rewrite IH, andb_assoc.
Qed.

Lemma accesses_locked_deletes ks s :
  mu s = WLocked →
  accesses_locked (for_each ks (λ host, trigger (MapDelete host))) s = true.
Proof.
  revert s. induction ks as [|k ks IH]; intros s Hmu; [done|].
  cbn. rewrite Hmu. cbn. by apply IH.
Qed.

Lemma accesses_locked_lines (f : nat → string → string) i l s :
  accesses_locked
    (for_each_idx i l (λ i ip, trigger (Fprintf (f i ip)))) s = true.
Proof.
  revert i s. induction l as [|x l IH]; intros i s; [done|].
  cbn. apply IH.
Qed.

Lemma accesses_locked_hosts prefix hs s :
  mu s ≠ Unlocked →
  (∀ h, h ∈ hs → ∃ p, hosts s !! h = Some p ∧ is_Some (heap s !! p)) →
  accesses_locked (for_each hs (λ hostName,
     host ← trigger (MapGet hostName);
     p ← deref host;
     l ← trigger (Load p Fip4);
     for_each_idx 0 (sort_Strings l) (λ i ip,
       trigger (Fprintf (dump_line prefix "v4" hostName i ip))) ;;
     p ← deref host;
     l ← trigger (Load p Fip6);
     for_each_idx 0 (sort_Strings l) (λ i ip,
       trigger (Fprintf (dump_line prefix "v6" hostName i ip))))%prog) s
  = true.
Proof.
  revert s. induction hs as [|h hs IH]; intros s Hmu Hall; [done|].
  destruct (Hall h) as (p & Hp & r & Hr); [apply list_elem_of_here|].
  assert (negb (bool_decide (mu s = Unlocked)) = true) as Hg.
  { by rewrite bool_decide_false. }
  cbn. rewrite Hg, Hp. cbn. rewrite Hg, Hr. cbn.
  rewrite !accesses_locked_bind, accesses_locked_lines, !run_bind.
  rewrite (for_each_idx_lines resolver (dump_line prefix "v4" h) 0
             (sort_Strings (ip4 r)) s).
  cbn. rewrite Hg, Hr. cbn.
  rewrite accesses_locked_lines.
  match goal with |- context [run (for_each_idx 0 ?l ?b) ?S] =>
    rewrite (for_each_idx_lines resolver (dump_line prefix "v6" h) 0 l S)
  end.
  cbn. apply IH; [done|].
  intros h' Hin. simpl. apply Hall. by apply list_elem_of_further.
Qed.

(** X17.  In every state the service reaches, [AddHost], [DelHost],
    [Stop], [GetNextIPWithIdx], [GetNextIP], [Dump] and [DumpPrefix]
    make every write to the map or to a record with the write lock held
    and every read of them with a lock held. *)
Theorem methods_hold_the_lock s host prefix :
  reachable s →
  accesses_locked (AddHost host) s = true ∧
  accesses_locked (DelHost host) s = true ∧
  accesses_locked Stop s = true ∧
  accesses_locked (GetNextIPWithIdx host) s = true ∧
  accesses_locked (GetNextIP host) s = true ∧
  accesses_locked Dump s = true ∧
  accesses_locked (DumpPrefix prefix) s = true.
Proof.
  intros Hreach.
  pose proof (reachable_wf resolver ParseIP s Hreach) as Hwf.
  pose proof (wf_mu s Hwf) as Hmu. pose proof (wf_alloc s Hwf) as Halloc.
  assert (accesses_locked (GetNextIPWithIdx host) s = true) as Hnext.
  { destruct s as [m hs t lg hp g w n sl]; simpl in *; subst m.
    unfold GetNextIPWithIdx. cbn.
    destruct (hs !! host) as [p|] eqn:Hh; [|done].
    destruct (Halloc host p Hh) as [r Hp]. run_step.
    destruct (decide (len (ip4 r) = 0)); [done|].
    run_step. unfold index. destruct (if decide _ then _ else _); [|done].
    by run_step. }
  assert (∀ prefix, accesses_locked (DumpPrefix prefix) s = true) as Hdump.
  { clear prefix. intros prefix.
    destruct s as [m hs t lg hp g w n sl]; simpl in *; subst m.
    unfold DumpPrefix.
    match goal with |- context [for_each ?l ?b] =>
      pose proof (accesses_locked_hosts prefix l
        (set_mu (RLocked 0) (Svc Unlocked hs t lg hp g w n sl))) as Ha;
      pose proof (dump_hosts_lines resolver prefix l
        (set_mu (RLocked 0) (Svc Unlocked hs t lg hp g w n sl))) as Hr
    end.
    assert (∀ h, h ∈ sort_Strings (map_to_list hs).*1 →
              ∃ p, hs !! h = Some p ∧ is_Some (hp !! p)) as Hall.
    { intros h Hin. assert (is_Some (hs !! h)) as [p Hp].
      { apply map_keys_lookup. unfold sort_Strings in Hin.
        by rewrite merge_sort_Permutation in Hin. }
      eauto. }
    cbn. rewrite accesses_locked_bind.
    cbn in Ha, Hr |- *. rewrite Ha, Hr by done. done. }
  split_and!; try done.
  - destruct s as [m hs t lg hp g w n sl]; simpl in *; subst m.
    unfold AddHost. cbn. by destruct (hs !! host).
  - destruct s as [m hs t lg hp g w n sl]; simpl in *; subst m. done.
  - destruct s as [m hs t lg hp g w n sl]; simpl in *; subst m.
    unfold Stop. cbn. rewrite accesses_locked_bind.
    rewrite accesses_locked_deletes by done.
    rewrite for_each_delete. done.
  - unfold GetNextIP. rewrite accesses_locked_bind, Hnext.
    by destruct (run (GetNextIPWithIdx host) s) as [[] ?| |].
  - apply Hdump.
Qed.

(** X18.  For a host of the map, [GetIPs] and [GetIPsStr] read the lists
    of the record after they have released the read lock, and
    [updateHostIPs] stores into the record with no lock held, whatever
    the state and the answer. *)
Theorem record_accesses_without_lock s host p sip :
  reachable s → hosts s !! host = Some p →
  accesses_locked (GetIPs host) s = false ∧
  accesses_locked (GetIPsStr host) s = false ∧
  accesses_locked (updateHostIPs ParseIP host sip) s = false ∧
  stores_locked resolver (updateHostIPs ParseIP host sip) s = false.
Proof.
  intros Hreach Hh.
  pose proof (reachable_wf resolver ParseIP s Hreach) as Hwf.
  pose proof (wf_mu s Hwf) as Hmu.
  destruct (wf_alloc s Hwf host p Hh) as [r Hp].
  destruct s as [m hs t lg hp g w n sl]; simpl in *; subst m.
  split_and!.
  - unfold GetIPs. cbn. rewrite Hh. done.
  - unfold GetIPsStr. cbn. rewrite Hh. done.
  - unfold updateHostIPs. cbn. rewrite Hh. done.
  - unfold updateHostIPs. cbn. rewrite Hh. done.
Qed.

End Locking.

(** ** Calls that race for the next address *)

Section Race.

Variable resolver : nat → string → lookup_result.
Variable ParseIP : string → option IP.

Local Abbreviation run := (run resolver).
Local Abbreviation reachable := (reachable resolver ParseIP).
Local Abbreviation atomic := (atomic resolver).
Local Abbreviation scheduled := (run_schedule resolver).
Local Abbreviation step := (step_thread resolver).

Lemma is_unlock_inv {X} (e : event X) s x s' :
  is_unlock e = true → mu s = WLocked → handle resolver e s = Done x s' →
  mu s' = Unlocked.
Proof.
  destruct e; try discriminate. intros _ Hmu. simpl. rewrite Hmu.
  by intros [= _ <-].
Qed.

Lemma waits_blocked {A} (q : prog A) j (ts : list (prog A)) s :
  mu s = WLocked → ts !! j = Some q → waits q = true →
  step j ts s = Blocked.
Proof.
  intros Hmu Hj Hw. unfold step_thread. rewrite Hj.
  destruct q as [a|X e k]; [done|].
  destruct e; try discriminate; simpl; by rewrite Hmu.
Qed.

(** A thread inside its critical section: while it has not returned, a
    schedule can only let it go on. *)
Lemma critical_section {A} (p : prog A) :
  ∀ i (ts : list (prog A)) s sched,
    ts !! i = Some p → atomic p s = true →
    (∀ j q, j ≠ i → ts !! j = Some q → waits q = true) →
    scheduled sched ts s = Blocked ∨
    (∃ ts' s' q, scheduled sched ts s = Done ts' s' ∧
                 ts' !! i = Some q ∧ returned q = false) ∨
    (∃ a s1 rest, run p s = Done a s1 ∧ mu s1 = Unlocked ∧
                  scheduled sched ts s =
                    scheduled rest (<[i:=Ret a]> ts) s1).
Proof.
  induction p as [a|X e k IH]; intros i ts s sched Hi Hat Hothers;
    [discriminate|].
  simpl in Hat. apply andb_prop in Hat as [Hmu Hat].
  apply bool_decide_eq_true in Hmu.
  destruct (handle resolver e s) as [x s'| |] eqn:He; try discriminate.
  destruct sched as [|j sched].
  { right. left. exists ts, s, (Vis e k). by split_and!. }
  destruct (decide (j = i)) as [->|Hne].
  - assert (step i ts s = Done (<[i:=k x]> ts) s') as Hstep.
    { unfold step_thread. by rewrite Hi, He. }
    assert (i < length ts)%nat as Hlt by (by eapply lookup_lt_Some).
    cbn [run_schedule]. rewrite Hstep.
    destruct (is_unlock e) eqn:Hu.
    + destruct (k x) as [a|] eqn:Hk; [|discriminate].
      right. right. exists a, s', sched. split_and!.
      * simpl. by rewrite He, Hk.
      * by apply (is_unlock_inv e s x s').
      * done.
    + destruct (IH x i (<[i:=k x]> ts) s' sched)
        as [Hb|[(ts' & s'' & q & Hrun & Hq & Hr)
               |(a & s1 & rest & Hrun & Hm & Heq)]].
      * by apply list_lookup_insert_eq.
      * done.
      * intros j q Hj. rewrite list_lookup_insert_ne by done. by apply Hothers.
      * by left.
      * right. left. by exists ts', s'', q.
      * right. right. exists a, s1, rest. split_and!.
        -- simpl. by rewrite He.
        -- done.
        -- by rewrite Heq, list_insert_insert_eq.
  - left. cbn [run_schedule].
    destruct (ts !! j) as [q|] eqn:Hj.
    + by rewrite (waits_blocked q j ts s Hmu Hj (Hothers j q Hne Hj)).
    + unfold step_thread. by rewrite Hj.
Qed.

(** A thread about to take the free mutex for a critical section. *)
Lemma locked_call {A} i (ts : list (prog A)) k s sched :
  ts !! i = Some (Vis Lock k) → mu s = Unlocked →
  atomic (k tt) (set_mu WLocked s) = true →
  (∀ j q, j ≠ i → ts !! j = Some q → waits q = true) →
  scheduled (i :: sched) ts s = Blocked ∨
  (∃ ts' s' q, scheduled (i :: sched) ts s = Done ts' s' ∧
               ts' !! i = Some q ∧ returned q = false) ∨
  (∃ a s1 rest, run (Vis Lock k) s = Done a s1 ∧ mu s1 = Unlocked ∧
                scheduled (i :: sched) ts s =
                  scheduled rest (<[i:=Ret a]> ts) s1).
Proof.
  intros Hi Hmu Hat Hothers.
  assert (step i ts s = Done (<[i:=k tt]> ts) (set_mu WLocked s))
    as Hstep.
  { unfold step_thread. rewrite Hi. simpl. by rewrite Hmu. }
  assert (i < length ts)%nat as Hlt by (by eapply lookup_lt_Some).
  cbn [run_schedule]. rewrite Hstep.
  destruct (critical_section (k tt) i (<[i:=k tt]> ts) (set_mu WLocked s)
              sched)
    as [Hb|[(ts' & s'' & q & Hrun & Hq & Hr)
           |(a & s1 & rest & Hrun & Hm & Heq)]].
  - by apply list_lookup_insert_eq.
  - done.
  - intros j q Hj. rewrite list_lookup_insert_ne by done. by apply Hothers.
  - by left.
  - right. left. by exists ts', s'', q.
  - right. right. exists a, s1, rest. split_and!.
    + simpl. by rewrite Hmu.
    + done.
    + by rewrite Heq, list_insert_insert_eq.
Qed.

Lemma all_returned {A} (ts : list (prog A)) s sched :
  Forall (λ q, returned q = true) ts →
  scheduled sched ts s =
    match sched with
    | [] => Done ts s
    | _ :: _ => Blocked
    end.
Proof.
  intros Hall. destruct sched as [|j sched]; [done|].
  cbn [run_schedule]. unfold step_thread.
  destruct (ts !! j) as [q|] eqn:Hj; [|done].
  rewrite Forall_lookup in Hall. specialize (Hall j q Hj).
  by destruct q.
Qed.

(** The last thread to take the mutex, the others having returned. *)
Lemma last_call {A} i (ts : list (prog A)) k s sched :
  ts !! i = Some (Vis Lock k) → mu s = Unlocked →
  atomic (k tt) (set_mu WLocked s) = true →
  (∀ j q, j ≠ i → ts !! j = Some q → returned q = true) →
  scheduled sched ts s ≠ Panicked ∧
  ∀ tsF sF, scheduled sched ts s = Done tsF sF →
    Forall (λ q, returned q = true) tsF →
    ∃ a, run (Vis Lock k) s = Done a sF ∧ tsF = <[i:=Ret a]> ts.
Proof.
  intros Hi Hmu Hat Hothers.
  assert (i < length ts)%nat as Hlt by (by eapply lookup_lt_Some).
  destruct sched as [|j sched].
  { split; [done|]. intros tsF sF [= <- <-] Hall.
    rewrite Forall_lookup in Hall. by specialize (Hall i _ Hi). }
  destruct (decide (j = i)) as [->|Hne].
  - destruct (locked_call i ts k s sched Hi Hmu Hat)
      as [Hb|[(ts' & s' & q & Hrun & Hq & Hr)
             |(a & s1 & rest & Hrun & Hm & Heq)]].
    + intros j q Hj Hq. specialize (Hothers j q Hj Hq). by destruct q.
    + rewrite Hb. by split.
    + rewrite Hrun. split; [done|]. intros tsF sF [= <- <-] Hall.
      rewrite Forall_lookup in Hall. specialize (Hall i q Hq). congruence.
    + rewrite Heq, all_returned.
      * destruct rest; [|by split]. split; [done|].
        intros tsF sF [= <- <-] _. by exists a.
      * apply Forall_lookup. intros j q.
        destruct (decide (j = i)) as [->|Hj].
        -- rewrite list_lookup_insert_eq by done. by intros [= <-].
        -- rewrite list_lookup_insert_ne by done. by apply Hothers.
  - assert (scheduled (j :: sched) ts s = Blocked) as ->; [|by split].
    cbn [run_schedule]. unfold step_thread.
    destruct (ts !! j) as [q|] eqn:Hj; [|done].
    specialize (Hothers j q Hne Hj). by destruct q.
Qed.

Lemma GetNextIPWithIdx_critical host :
  ∃ k, GetNextIPWithIdx host = Vis Lock k ∧
       ∀ s, wf s → atomic (k tt) (set_mu WLocked s) = true.
Proof.
  eexists. split; [reflexivity|]. intros s Hwf.
  pose proof (wf_mu s Hwf) as Hmu. pose proof (wf_alloc s Hwf) as Halloc.
  pose proof (wf_cursor s Hwf) as Hcur. pose proof (wf_fits s Hwf) as Hfit.
  destruct s as [m hs t lg hp g w n sl]; simpl in *; subst m. cbn.
  destruct (hs !! host) as [p|] eqn:Hh; [|done].
  destruct (Halloc host p Hh) as [r Hp]. run_step.
  destruct (decide (len (ip4 r) = 0)) as [H0|Hne0]; [done|].
  assert (ip4 r ≠ []) as Hne by (by rewrite <- len_nil_iff).
  destruct (Hcur p r Hp) as [_ Hc]. specialize (Hc Hne).
  destruct (next_cursor (idx r) (len (ip4 r)) Hc (Hfit p r Hp)) as [Hi Hr].
  destruct (lookup_lt_is_Some_2 (ip4 r)
              (Z.to_nat (int_rem (int_add (idx r) 1) (len (ip4 r)))))
    as [ip Hip].
  { rewrite Hi. unfold len in *. lia. }
  run_step. unfold index. rewrite decide_True by (rewrite Hi; lia).
  rewrite Hip. by run_step.
Qed.

(** X2.  Two calls of [GetNextIPWithIdx] that run at the same time, for
    the same host or for two, never panic, whatever the schedule, and
    when both have returned their results and the state are those of the
    two calls made one after the other, in one of the two orders. *)
Theorem racing_calls_take_turns s h1 h2 sched :
  reachable s →
  scheduled sched [GetNextIPWithIdx h1; GetNextIPWithIdx h2] s ≠ Panicked ∧
  ∀ a b sF,
    scheduled sched [GetNextIPWithIdx h1; GetNextIPWithIdx h2] s =
      Done [Ret a; Ret b] sF →
    (∃ s1, run (GetNextIPWithIdx h1) s = Done a s1 ∧
           run (GetNextIPWithIdx h2) s1 = Done b sF) ∨
    (∃ s1, run (GetNextIPWithIdx h2) s = Done b s1 ∧
           run (GetNextIPWithIdx h1) s1 = Done a sF).
Proof.
  intros Hreach.
  pose proof (reachable_wf resolver ParseIP s Hreach) as Hwf.
  pose proof (wf_mu s Hwf) as Hmu.
  destruct (GetNextIPWithIdx_critical h1) as (k1 & E1 & Hat1).
  destruct (GetNextIPWithIdx_critical h2) as (k2 & E2 & Hat2).
  assert (∀ h res s1, run (GetNextIPWithIdx h) s = Done res s1 → wf s1)
    as Hwf1.
  { intros h res s1 Hrun.
    destruct (GetNextIPWithIdx_wf resolver s h Hwf) as (res' & s1' & Hrun' & H).
    rewrite Hrun in Hrun'. by injection Hrun' as <- <-. }
  assert (∀ res s1, run (Vis Lock k1) s = Done res s1 → wf s1) as Hw1.
  { rewrite <- E1. apply Hwf1. }
  assert (∀ res s1, run (Vis Lock k2) s = Done res s1 → wf s1) as Hw2.
  { rewrite <- E2. apply Hwf1. }
  clear Hwf1. rewrite E1, E2. clear E1 E2.
  set (ts := [Vis Lock k1; Vis Lock k2]).
  assert (∀ i j q, j ≠ i → ts !! j = Some q → waits q = true) as Hwaits.
  { intros i [|[|j]] q _; simpl; try done; by intros [= <-]. }
  destruct sched as [|[|[|j]] sched].
  - split; [done|]. intros a b sF. discriminate.
  - destruct (locked_call 0 ts k1 s sched eq_refl Hmu (Hat1 s Hwf)
                (Hwaits 0%nat))
      as [Hb|[(ts' & s' & q & Hrun & Hq & Hr)
             |(a' & s1 & rest & Hrun & Hm & Heq)]].
    + rewrite Hb. by split.
    + rewrite Hrun. split; [done|]. intros a b sF [= -> ->].
      simpl in Hq. injection Hq as <-. discriminate.
    + rewrite Heq. change (<[0%nat:=Ret a']> ts) with [Ret a'; Vis Lock k2].
      destruct (last_call 1 [Ret a'; Vis Lock k2] k2 s1 rest eq_refl Hm)
        as [Hnp Hfin].
      * apply Hat2. by apply (Hw1 a').
      * intros [|[|j]] q Hj; simpl; try done. by intros [= <-].
      * split; [done|]. intros a b sF HF.
        destruct (Hfin _ _ HF) as (b' & Hrun2 & Heq2).
        { by repeat constructor. }
        simpl in Heq2. injection Heq2 as -> ->. left. by exists s1.
  - destruct (locked_call 1 ts k2 s sched eq_refl Hmu (Hat2 s Hwf)
                (Hwaits 1%nat))
      as [Hb|[(ts' & s' & q & Hrun & Hq & Hr)
             |(b' & s1 & rest & Hrun & Hm & Heq)]].
    + rewrite Hb. by split.
    + rewrite Hrun. split; [done|]. intros a b sF [= -> ->].
      simpl in Hq. injection Hq as <-. discriminate.
    + rewrite Heq. change (<[1%nat:=Ret b']> ts) with [Vis Lock k1; Ret b'].
      destruct (last_call 0 [Vis Lock k1; Ret b'] k1 s1 rest eq_refl Hm)
        as [Hnp Hfin].
      * apply Hat1. by apply (Hw2 b').
      * intros [|[|j]] q Hj; simpl; try done. by intros [= <-].
      * split; [done|]. intros a b sF HF.
        destruct (Hfin _ _ HF) as (a' & Hrun1 & Heq1).
        { by repeat constructor. }
        simpl in Heq1. injection Heq1 as -> ->. right. by exists s1.
  - split; [done|]. intros a b sF. discriminate.
Qed.

End Race.

(** ** The further properties on the example data *)

Lemma reachable_resolved_mixed :
  reachable (once mixed) Sample.sampleParseIP (resolved mixed).
Proof.
  reach_from registered (CRefresh "example"). apply reachable_registered.
Qed.

Lemma reachable_resolved_always_three :
  reachable (always three) Sample.sampleParseIP (resolved three).
Proof.
  reach_from registered (CRefresh "example"). apply reachable_registered.
Qed.

Lemma record_resolved_three :
  record (resolved three) "example" =
    Some (Ips 0 three [] (omap Sample.sampleParseIP three) []).
Proof. vm_compute. reflexivity. Qed.

Lemma records_tidy_witness :
  reachable (once mixed) Sample.sampleParseIP (resolved mixed) ∧
  heap (resolved mixed) !! 1%positive =
    Some (Ips 0 ["10.0.0.1"; "10.0.0.2"] ["::1"]
            (omap Sample.sampleParseIP ["10.0.0.1"; "10.0.0.2"])
            (omap Sample.sampleParseIP ["::1"])) ∧
  tidy Sample.sampleParseIP
    (Ips 0 ["10.0.0.1"; "10.0.0.2"] ["::1"]
       (omap Sample.sampleParseIP ["10.0.0.1"; "10.0.0.2"])
       (omap Sample.sampleParseIP ["::1"])).
Proof.
  assert (heap (resolved mixed) !! 1%positive =
            Some (Ips 0 ["10.0.0.1"; "10.0.0.2"] ["::1"]
                    (omap Sample.sampleParseIP ["10.0.0.1"; "10.0.0.2"])
                    (omap Sample.sampleParseIP ["::1"]))) as Hp
    by (vm_compute; reflexivity).
  split; [exact reachable_resolved_mixed|]. split; [exact Hp|].
  exact (records_tidy (once mixed) Sample.sampleParseIP (resolved mixed)
           1%positive _ reachable_resolved_mixed Hp).
Defined.

Lemma GetIPs_matches_GetIPsStr_witness :
  reachable (once mixed) Sample.sampleParseIP (resolved mixed) ∧
  hosts (resolved mixed) !! "example" = Some 1%positive ∧
  ∃ s4 s6 b4 b6,
    run (once mixed) (GetIPsStr "example") (resolved mixed) =
      Done (s4, s6) (resolved mixed) ∧
    run (once mixed) (GetIPs "example") (resolved mixed) =
      Done (b4, b6) (resolved mixed) ∧
    length b4 = length s4 ∧ length b6 = length s6.
Proof.
  assert (hosts (resolved mixed) !! "example" = Some 1%positive) as Hh
    by (vm_compute; reflexivity).
  split; [exact reachable_resolved_mixed|]. split; [exact Hh|].
  destruct (GetIPs_matches_GetIPsStr (once mixed) Sample.sampleParseIP
              (resolved mixed) "example" _ reachable_resolved_mixed Hh)
    as (s4 & s6 & b4 & b6 & H1 & H2 & _ & _ & _ & _ & L4 & L6).
  by exists s4, s6, b4, b6.
Defined.

Lemma DumpPrefix_writes_witness :
  reachable (once mixed) Sample.sampleParseIP (resolved mixed) ∧
  run (once mixed) (DumpPrefix "p.") (resolved mixed) =
    Done tt (set_written (written (resolved mixed) ++
                            dump_lines "p." (resolved mixed))
               (resolved mixed)) ∧
  dump_lines "p." (resolved mixed) =
    ["p.resolver.v4.example.0: 10.0.0.1" +:+ newline;
     "p.resolver.v4.example.1: 10.0.0.2" +:+ newline;
     "p.resolver.v6.example.0: ::1" +:+ newline].
Proof.
  split; [exact reachable_resolved_mixed|]. split.
  - apply (DumpPrefix_writes (once mixed) Sample.sampleParseIP
             (resolved mixed) "p." reachable_resolved_mixed).
  - vm_compute. reflexivity.
Defined.

Lemma dump_line_iff_witness :
  reachable (once mixed) Sample.sampleParseIP (resolved mixed) ∧
  "p.resolver.v6.example.0: ::1" +:+ newline
    ∈ dump_lines "p." (resolved mixed).
Proof.
  split; [exact reachable_resolved_mixed|].
  apply (dump_line_iff (once mixed) Sample.sampleParseIP (resolved mixed)
           "p." _ reachable_resolved_mixed).
  eexists "example", _, 0%nat, "::1". split.
  - vm_compute. reflexivity.
  - right. split; reflexivity.
Defined.

Lemma hosts_have_goroutines_witness :
  reachable (once three) Sample.sampleParseIP (resolved three) ∧
  is_Some (hosts (resolved three) !! "example") ∧
  "example" ∈ goroutines (resolved three).
Proof.
  assert (is_Some (hosts (resolved three) !! "example")) as Hh
    by (vm_compute; eexists; reflexivity).
  split; [exact reachable_resolved_once_three|]. split; [exact Hh|].
  exact (hosts_have_goroutines (once three) Sample.sampleParseIP
           (resolved three) "example" reachable_resolved_once_three Hh).
Defined.

Lemma Stop_clears_witness :
  reachable (always three) Sample.sampleParseIP (resolved three) ∧
  run (always three) Stop (resolved three) =
    Done tt (set_hosts ∅ (resolved three)) ∧
  run (always three) (GetIPsStr "example") (set_hosts ∅ (resolved three)) =
    Done ([], []) (set_hosts ∅ (resolved three)).
Proof.
  split; [exact reachable_resolved_always_three|].
  destruct (Stop_clears (always three) Sample.sampleParseIP (resolved three)
              reachable_resolved_always_three) as (H1 & H2 & _).
  split; [exact H1|]. apply (H2 "example").
Defined.

Lemma DelHost_removes_one_witness :
  reachable (once three) Sample.sampleParseIP (resolved three) ∧
  run (once three) (DelHost "example") (resolved three) =
    Done tt (set_hosts (delete "example" (hosts (resolved three)))
               (resolved three)) ∧
  record (set_hosts (delete "example" (hosts (resolved three)))
            (resolved three)) "example" = None.
Proof.
  split; [exact reachable_resolved_once_three|].
  destruct (DelHost_removes_one (once three) Sample.sampleParseIP
              (resolved three) "example" reachable_resolved_once_three)
    as (H1 & H2 & _).
  by split.
Defined.

Lemma readd_starts_another_loop_witness :
  reachable (always three) Sample.sampleParseIP (resolved three) ∧
  hosts (resolved three) !! "example" = Some 1%positive ∧
  ∃ s', run (always three) (DelHost "example" ;; AddHost "example")%prog
          (resolved three) = Done tt s' ∧
        record s' "example" = Some ips_zero ∧
        goroutines s' = ["example"; "example"].
Proof.
  assert (hosts (resolved three) !! "example" = Some 1%positive) as Hh
    by (vm_compute; reflexivity).
  split; [exact reachable_resolved_always_three|]. split; [exact Hh|].
  destruct (readd_starts_another_loop (always three) Sample.sampleParseIP
              (resolved three) "example" _ reachable_resolved_always_three Hh)
    as (s' & p' & Hrun & _ & _ & Hrec & _ & Hg & _).
  exists s'. split; [exact Hrun|]. split; [exact Hrec|]. exact Hg.
Defined.

Lemma update_touches_one_host_witness :
  reachable (once three) Sample.sampleParseIP (resolved three) ∧
  ∃ b s', run (once three)
            (updateHostIPs Sample.sampleParseIP "elsewhere" two)
            (resolved three) = Done b s' ∧
          record s' "example" = record (resolved three) "example".
Proof.
  split; [exact reachable_resolved_once_three|].
  destruct (update_touches_one_host (once three) Sample.sampleParseIP
              (resolved three) "elsewhere" two reachable_resolved_once_three)
    as (b & s' & Hrun & _ & _ & _ & Hother & _).
  exists b, s'. split; [exact Hrun|]. by apply Hother.
Defined.

Lemma record_advanced_five :
  record (advanced five 3) "example" =
    Some (Ips 3 five [] (omap Sample.sampleParseIP five) []).
Proof. vm_compute. reflexivity. Qed.

Lemma update_keeps_cursor_witness :
  reachable (once five) Sample.sampleParseIP (advanced five 3) ∧
  fits five ∧
  3 < len (filter (is_v4 Sample.sampleParseIP) five) ∧
  ∃ s' r', run (once five)
             (updateHostIPs Sample.sampleParseIP "example" five)
             (advanced five 3) = Done true s' ∧
           record s' "example" = Some r' ∧ idx r' = 3.
Proof.
  assert (fits five) as Hfit by (vm_compute; discriminate).
  assert (3 < len (filter (is_v4 Sample.sampleParseIP) five)) as Hlt
    by (vm_compute; reflexivity).
  split; [exact reachable_advanced_five|]. split; [exact Hfit|].
  split; [exact Hlt|].
  exact (update_keeps_cursor (once five) Sample.sampleParseIP
           (advanced five 3) "example" _ five reachable_advanced_five
           record_advanced_five Hfit Hlt).
Defined.

Lemma update_same_answer_twice_witness :
  reachable (once three) Sample.sampleParseIP (resolved three) ∧
  fits three ∧
  ∃ s1 s2,
    run (once three) (updateHostIPs Sample.sampleParseIP "example" three)
      (resolved three) = Done true s1 ∧
    run (once three) (updateHostIPs Sample.sampleParseIP "example" three)
      s1 = Done true s2 ∧
    heap s2 = heap s1.
Proof.
  assert (fits three) as Hfit by (vm_compute; discriminate).
  split; [exact reachable_resolved_once_three|]. split; [exact Hfit|].
  destruct (update_same_answer_twice (once three) Sample.sampleParseIP
              (resolved three) "example" _ three
              reachable_resolved_once_three record_resolved_three Hfit)
    as (s1 & s2 & H1 & H2 & _ & Hp & _).
  by exists s1, s2.
Defined.

Lemma update_without_address_clears_witness :
  reachable (once three) Sample.sampleParseIP (resolved three) ∧
  Forall (λ ip, Sample.sampleParseIP ip = None) ["not-an-ip"] ∧
  ∃ s', run (once three)
          (updateHostIPs Sample.sampleParseIP "example" ["not-an-ip"])
          (resolved three) = Done true s' ∧
        record s' "example" = Some ips_zero ∧
        run (once three) (GetNextIPWithIdx "example") s' = Done ("", -1) s'.
Proof.
  assert (Forall (λ ip, Sample.sampleParseIP ip = None) ["not-an-ip"])
    as Hall by (repeat constructor).
  split; [exact reachable_resolved_once_three|]. split; [exact Hall|].
  destruct (update_without_address_clears (once three) Sample.sampleParseIP
              (resolved three) "example" _ ["not-an-ip"]
              reachable_resolved_once_three record_resolved_three Hall)
    as (s' & Hrun & Hrec & Hnext & _).
  by exists s'.
Defined.

Lemma round_robin_full_turn_witness :
  reachable (once three) Sample.sampleParseIP (resolved three) ∧
  ∃ s', run (once three) (repeat_call 3 (GetNextIPWithIdx "example"))
          (resolved three) =
          Done [("10.0.0.2", 1); ("10.0.0.3", 2); ("10.0.0.1", 0)] s' ∧
        record s' "example" = record (resolved three) "example".
Proof.
  split; [exact reachable_resolved_once_three|].
  destruct (round_robin_full_turn (once three) Sample.sampleParseIP
              (resolved three) "example" _ reachable_resolved_once_three
              record_resolved_three)
    as (res & s' & Hrun & Hres & _ & _ & Hrec); [discriminate|].
  exists s'. split.
  - rewrite Hres in Hrun. exact Hrun.
  - rewrite Hrec. symmetry. exact record_resolved_three.
Defined.

Lemma loop_retries_while_lookups_fail_witness :
  (∀ n, (lookups removed ≤ n < lookups removed + 3)%nat →
        ∃ err, failing n "example" = LookupErr err) ∧
  ∃ s' (lines : list (level * list operand)),
    run failing (refresher Sample.sampleParseIP 3 "example") removed =
      Done OutOfFuel s' ∧
    lookups s' = (lookups removed + 3)%nat ∧
    slept s' = (slept removed + 60 * 3)%nat ∧
    length lines = 3%nat.
Proof.
  assert (∀ n, (lookups removed ≤ n < lookups removed + 3)%nat →
               ∃ err, failing n "example" = LookupErr err) as Hfail.
  { intros n _. eexists. reflexivity. }
  split; [exact Hfail|].
  destruct (loop_retries_while_lookups_fail failing Sample.sampleParseIP
              3 removed "example" Hfail)
    as (_ & s' & lines & Hrun & _ & _ & Hl & Hs & _ & Hn & _).
  by exists s', lines.
Defined.

Lemma loop_runs_while_registered_witness :
  reachable (always three) Sample.sampleParseIP (resolved three) ∧
  hosts (resolved three) !! "example" = Some 1%positive ∧
  (∀ n addrs, always three n "example" = LookupOk addrs → fits addrs) ∧
  ∃ s', run (always three) (refreshLoop Sample.sampleParseIP 3 "example")
          (resolved three) = Done OutOfFuel s' ∧
        lookups s' = (lookups (resolved three) + 3)%nat.
Proof.
  assert (hosts (resolved three) !! "example" = Some 1%positive) as Hh
    by (vm_compute; reflexivity).
  assert (∀ n addrs, always three n "example" = LookupOk addrs → fits addrs)
    as Hfits.
  { intros n addrs [= <-]. vm_compute. discriminate. }
  split; [exact reachable_resolved_always_three|]. split; [exact Hh|].
  split; [exact Hfits|].
  destruct (loop_runs_while_registered (always three) Sample.sampleParseIP
              3 (resolved three) "example" _
              reachable_resolved_always_three Hh Hfits)
    as (s' & Hrun & _ & Hl & _).
  by exists s'.
Defined.

Lemma methods_hold_the_lock_witness :
  reachable (once three) Sample.sampleParseIP (resolved three) ∧
  accesses_locked (once three) (GetNextIPWithIdx "example") (resolved three)
    = true ∧
  accesses_locked (once three) (DumpPrefix "p.") (resolved three) = true.
Proof.
  split; [exact reachable_resolved_once_three|].
  destruct (methods_hold_the_lock (once three) Sample.sampleParseIP
              (resolved three) "example" "p." reachable_resolved_once_three)
    as (_ & _ & _ & H & _ & _ & H').
  by split.
Defined.

Lemma record_accesses_without_lock_witness :
  reachable (once three) Sample.sampleParseIP (resolved three) ∧
  hosts (resolved three) !! "example" = Some 1%positive ∧
  accesses_locked (once three) (GetIPs "example") (resolved three) = false ∧
  accesses_locked (once three)
    (updateHostIPs Sample.sampleParseIP "example" two) (resolved three)
    = false.
Proof.
  assert (hosts (resolved three) !! "example" = Some 1%positive) as Hh
    by (vm_compute; reflexivity).
  split; [exact reachable_resolved_once_three|]. split; [exact Hh|].
  destruct (record_accesses_without_lock (once three) Sample.sampleParseIP
              (resolved three) "example" _ two
              reachable_resolved_once_three Hh)
    as (H1 & _ & H3 & _).
  by split.
Defined.

Lemma racing_calls_take_turns_witness :
  reachable (once three) Sample.sampleParseIP (resolved three) ∧
  run_schedule (once three) turns_schedule
    [GetNextIPWithIdx "example"; GetNextIPWithIdx "example"]
    (resolved three) =
    Done [Ret ("10.0.0.2", 1); Ret ("10.0.0.3", 2)] (advanced three 2) ∧
  ((∃ s1, run (once three) (GetNextIPWithIdx "example") (resolved three) =
            Done ("10.0.0.2", 1) s1 ∧
          run (once three) (GetNextIPWithIdx "example") s1 =
            Done ("10.0.0.3", 2) (advanced three 2)) ∨
   (∃ s1, run (once three) (GetNextIPWithIdx "example") (resolved three) =
            Done ("10.0.0.3", 2) s1 ∧
          run (once three) (GetNextIPWithIdx "example") s1 =
            Done ("10.0.0.2", 1) (advanced three 2))).
Proof.
  assert (run_schedule (once three) turns_schedule
            [GetNextIPWithIdx "example"; GetNextIPWithIdx "example"]
            (resolved three) =
            Done [Ret ("10.0.0.2", 1); Ret ("10.0.0.3", 2)]
              (advanced three 2)) as Hrun by (vm_compute; reflexivity).
  split; [exact reachable_resolved_once_three|]. split; [exact Hrun|].
  destruct (racing_calls_take_turns (once three) Sample.sampleParseIP
              (resolved three) "example" "example" turns_schedule
              reachable_resolved_once_three) as [_ H].
  exact (H _ _ _ Hrun).
Defined.
